(** * Tetfu: the fumen encoder and decoder of [scripts/fumen-parser.js]

    A shallow embedding of the [Tetfu] library (the [details] helpers and the
    [Fumen] class) and the properties of its encode/decode pair.

    Conventions of the embedding:
    - a JavaScript string is the list of its UTF-16 code units ([list Z]);
    - a JavaScript number that the code only uses as an integer is a [Z];
      [%] is the truncating remainder [Z.rem] and [Math.floor(a / b)] is the
      flooring division [Z.div];
    - array indices and the parse cursor [pos.value] are [nat];
    - [throw] / [try ... catch] are an explicit outcome type, and the
      [while] loops of [decode] run on fuel. *)

From Stdlib Require Import ZArith Lia String Ascii.
From stdpp Require Import base list gmap.

Open Scope Z_scope.

(** ** JavaScript strings *)

Abbreviation jsstring := (list Z).

(** A string literal of the source, as code units. *)
Definition lit (s : string) : jsstring :=
  map (fun a => Z.of_N (N_of_ascii a)) (list_ascii_of_string s).

Definition isHighSurrogate (c : Z) : bool := (0xD800 <=? c) && (c <=? 0xDBFF).
Definition isLowSurrogate (c : Z) : bool := (0xDC00 <=? c) && (c <=? 0xDFFF).

(** [for (const char of s)]: the string iterator yields one string per code
    point, a surrogate pair being a single two-unit string. *)
Fixpoint chars (s : jsstring) : list jsstring :=
  match s with
  | [] => []
  | c :: rest =>
      match rest with
      | d :: rest' =>
          if isHighSurrogate c && isLowSurrogate d
          then [c; d] :: chars rest'
          else [c] :: chars rest
      | [] => [[c]]
      end
  end.

(** [s[i]] on a string: a one-unit string, or [undefined] ([None]). *)
Definition str_index (s : jsstring) (i : Z) : option Z :=
  if i <? 0 then None else s !! Z.to_nat i.

(** [result += v] where [v] is a character or [undefined]. *)
Definition append_value (result : jsstring) (v : option Z) : jsstring :=
  result ++ match v with
            | Some c => [c]
            | None => lit "undefined"
            end.

(** [char.charCodeAt(0)] of a non-empty string. *)
Definition charCodeAt0 (char : jsstring) : Z := hd 0 char.

Definition startsWith (s prefix : jsstring) : bool :=
  bool_decide (take (length prefix) s = prefix).

(** ** Outcomes of a JavaScript computation *)

Inductive outcome (A : Type) : Type :=
| Normal (a : A)
| Throw (msg : string)
| OutOfFuel.

Arguments Normal {A} a.
Arguments Throw {A} msg.
Arguments OutOfFuel {A}.

(** ** Constants and page records *)

Definition FIELD_WIDTH : Z := 10.
Definition FIELD_HEIGHT : Z := 24.
Definition FIELD_NUM_CELLS : Z := FIELD_WIDTH * FIELD_HEIGHT.
Definition FUMEN_VERSION : jsstring := lit "v115@".

Record Piece : Type := mkPiece {
  type : Z;
  rotation : Z;
  location : Z
}.

Record Flags : Type := mkFlags {
  raise : bool;
  mirror : bool;
  color : bool;
  lock : bool;
  comment : jsstring
}.

Record FumenPage : Type := mkPage {
  field : list Z;
  piece : Piece;
  flags : Flags
}.

(** [MinoType.N_BLOCK] is 0 and [Rotation.North] is 2. *)
Definition newPiece : Piece := mkPiece 0 2 0.
Definition newFlags : Flags := mkFlags false false true true [].
Definition newFumenPage : FumenPage :=
  mkPage (replicate (Z.to_nat FIELD_NUM_CELLS) 0) newPiece newFlags.

Record Fumen : Type := mkFumen { pages : list FumenPage }.

(** ** [details]: the helper functions *)

Definition ENCODE_TABLE : jsstring :=
  lit "ABCDEFGHIJKLMNOPQRSTUVWXYZabcdefghijklmnopqrstuvwxyz0123456789+/".

(** [init]: [DECODE_TABLE.set(ENCODE_TABLE[i], i)] for [i] from 0 to 63.
    The keys are one-character strings (the table has 64 characters, so
    [ENCODE_TABLE[i]] is never [undefined] here). *)
Definition init_step (m : gmap (list Z) Z) (i : nat) : gmap (list Z) Z :=
  match str_index ENCODE_TABLE (Z.of_nat i) with
  | Some c => <[ [c] := Z.of_nat i ]> m
  | None => m
  end.

Definition DECODE_TABLE : gmap (list Z) Z :=
  foldl init_step ∅ (seq 0 64).

(** [unpoll(value, numChars)] *)
Fixpoint unpoll_loop (n : nat) (value : Z) (result : jsstring) : jsstring :=
  match n with
  | O => result
  | S n' =>
      unpoll_loop n' (value / 64)
        (append_value result (str_index ENCODE_TABLE (Z.rem value 64)))
  end.

Definition unpoll (value : Z) (numChars : nat) : jsstring :=
  unpoll_loop numChars value [].

(** [poll(data, pos, count)]: the cursor [pos.value] is passed in and the
    advanced cursor is returned next to the value.  The sum is the exact
    integer; the source adds doubles, which is the same for base-64 digits
    as long as [count <= 8] (the value stays below [2^48]); [decode] polls
    2, 3 or 5 digits. *)
Fixpoint poll_loop (n : nat) (data : list Z) (idx : nat) (value multiplier : Z) : Z :=
  match n with
  | O => value
  | S n' =>
      poll_loop n' data (S idx) (value + nth idx data 0 * multiplier) (multiplier * 64)
  end.

Definition poll (data : list Z) (pos count : nat) : outcome (Z * nat) :=
  if (length data <? pos + count)%nat
  then Throw "Data stream ended unexpectedly during poll."
  else Normal (poll_loop count data pos 0 1, (pos + count)%nat).

(** [code.toString(16).toUpperCase()] *)
Fixpoint hex_digits (u : Hexadecimal.uint) : jsstring :=
  match u with
  | Hexadecimal.Nil => []
  | Hexadecimal.D0 u' => 48 :: hex_digits u'
  | Hexadecimal.D1 u' => 49 :: hex_digits u'
  | Hexadecimal.D2 u' => 50 :: hex_digits u'
  | Hexadecimal.D3 u' => 51 :: hex_digits u'
  | Hexadecimal.D4 u' => 52 :: hex_digits u'
  | Hexadecimal.D5 u' => 53 :: hex_digits u'
  | Hexadecimal.D6 u' => 54 :: hex_digits u'
  | Hexadecimal.D7 u' => 55 :: hex_digits u'
  | Hexadecimal.D8 u' => 56 :: hex_digits u'
  | Hexadecimal.D9 u' => 57 :: hex_digits u'
  | Hexadecimal.Da u' => 65 :: hex_digits u'
  | Hexadecimal.Db u' => 66 :: hex_digits u'
  | Hexadecimal.Dc u' => 67 :: hex_digits u'
  | Hexadecimal.Dd u' => 68 :: hex_digits u'
  | Hexadecimal.De u' => 69 :: hex_digits u'
  | Hexadecimal.Df u' => 70 :: hex_digits u'
  end.

Definition toHexUpper (code : Z) : jsstring :=
  hex_digits (N.to_hex_uint (Z.to_N code)).

(** The test of [percentEncode]: digits, letters, and [-], [_], [.], [~]. *)
Definition passes_through (char : jsstring) : bool :=
  let code := charCodeAt0 char in
  ((48 <=? code) && (code <=? 57))
  || ((65 <=? code) && (code <=? 90))
  || ((97 <=? code) && (code <=? 122))
  || bool_decide (char = lit "-") || bool_decide (char = lit "_")
  || bool_decide (char = lit ".") || bool_decide (char = lit "~").

Definition percentEncode_step (result : jsstring) (char : jsstring) : jsstring :=
  if passes_through char then result ++ char
  else
    let hex := toHexUpper (charCodeAt0 char) in
    result ++ (lit "%" ++ (if (length hex <? 2)%nat then lit "0" else [])) ++ hex.

Definition percentEncode (str : jsstring) : jsstring :=
  foldl percentEncode_step [] (chars str).

(** [/^[0-9A-Fa-f]{2}$/] on a two-unit string, and [parseInt(hex, 16)]. *)
Definition isHexDigit (c : Z) : bool :=
  ((48 <=? c) && (c <=? 57)) || ((65 <=? c) && (c <=? 70))
  || ((97 <=? c) && (c <=? 102)).

Definition hexDigitValue (c : Z) : Z :=
  if c <=? 57 then c - 48 else if c <=? 70 then c - 55 else c - 87.

Definition parseHex2 (h1 h2 : Z) : Z := hexDigitValue h1 * 16 + hexDigitValue h2.

(** [percentDecode]: the argument is the part of [str] from index [i] on.
    [str[i] === '%' && i + 2 < str.length] holds when the current unit is
    [%] and at least two more units follow it. *)
Fixpoint percentDecode_loop (s : jsstring) (result : jsstring) : jsstring :=
  match s with
  | [] => result
  | c :: rest =>
      match rest with
      | h1 :: h2 :: rest' =>
          if bool_decide (c = 37) then
            if isHexDigit h1 && isHexDigit h2
            then percentDecode_loop rest' (result ++ [parseHex2 h1 h2])
            else percentDecode_loop rest (result ++ [c])
          else percentDecode_loop rest (result ++ [c])
      | _ => percentDecode_loop rest (result ++ [c])
      end
  end.

Definition percentDecode (str : jsstring) : jsstring :=
  percentDecode_loop str [].

(** ** [Fumen.decode] *)

#[global] Instance outcome_bind : MBind outcome :=
  fun A B (k : A -> outcome B) (o : outcome A) =>
    match o with
    | Normal a => k a
    | Throw msg => Throw msg
    | OutOfFuel => OutOfFuel
    end.

(** The digit of one character: [DECODE_TABLE.get(char) || 0]. *)
Definition digit_of (char : jsstring) : Z :=
  match DECODE_TABLE !! char with
  | Some v => v
  | None => 0
  end.

(** [numData]: every character other than [?] pushes its digit. *)
Definition numData_of (data : jsstring) : list Z :=
  foldl (fun numData char =>
           if bool_decide (char = lit "?") then numData
           else numData ++ [digit_of char]) [] (chars data).

(** [for (i = 0; i < repeat && cellCount < FIELD_NUM_CELLS; ++i)], with [n]
    the iterations that [repeat] still allows. *)
Fixpoint fill_run (n : nat) (prevField : list Z) (diff : Z)
    (curField : list Z) (cellCount : nat) : list Z * nat :=
  match n with
  | O => (curField, cellCount)
  | S n' =>
      if Z.of_nat cellCount <? FIELD_NUM_CELLS
      then fill_run n' prevField diff
             (<[cellCount := nth cellCount prevField 0 + diff - 8]> curField)
             (S cellCount)
      else (curField, cellCount)
  end.

(** [while (cellCount < FIELD_NUM_CELLS)] *)
Fixpoint field_loop (fuel : nat) (data prevField curField : list Z)
    (cellCount pos : nat) : outcome (list Z * nat) :=
  if Z.of_nat cellCount <? FIELD_NUM_CELLS then
    match fuel with
    | O => OutOfFuel
    | S fuel' =>
        '(value, pos') ← poll data pos 2;
        let diff := value / FIELD_NUM_CELLS in
        let repeat := Z.rem value FIELD_NUM_CELLS + 1 in
        let '(curField', cellCount') :=
          fill_run (Z.to_nat repeat) prevField diff curField cellCount in
        field_loop fuel' data prevField curField' cellCount' pos'
    end
  else Normal (curField, pos).

Definition parse_field (data prevField : list Z) (pos : nat) : outcome (list Z * nat) :=
  field_loop (Z.to_nat FIELD_NUM_CELLS) data prevField (field newFumenPage) 0 pos.

(** The fields read from the three-digit descriptor. *)
Record Descriptor : Type := mkDescriptor {
  d_piece : Piece;
  d_raise : bool;
  d_mirror : bool;
  d_color : bool;
  d_hasComment : bool;
  d_lock : bool
}.

Definition odd_js (value : Z) : bool := negb (Z.rem value 2 =? 0).

Definition unpack_descriptor (value : Z) : Descriptor :=
  let type_ := Z.rem value 8 in
  let value := value / 8 in
  let rotation_ := Z.rem value 4 in
  let value := value / 4 in
  let location_ := Z.rem value FIELD_NUM_CELLS in
  let value := value / FIELD_NUM_CELLS in
  let raise_ := odd_js value in
  let value := value / 2 in
  let mirror_ := odd_js value in
  let value := value / 2 in
  let color_ := odd_js value in
  let value := value / 2 in
  let hasComment := odd_js value in
  let value := value / 2 in
  let lock_ := (Z.rem value 2 =? 0) in
  mkDescriptor (mkPiece type_ rotation_ location_) raise_ mirror_ color_ hasComment lock_.

Definition parse_descriptor (data : list Z) (pos : nat) : outcome (Descriptor * nat) :=
  '(value, pos') ← poll data pos 3;
  Normal (unpack_descriptor value, pos').

(** [for (j = 0; j < 4; ++j)]: four characters out of one chunk value. *)
Fixpoint chunk_chars (n : nat) (chunkValue : Z) (escapedComment : jsstring) : jsstring :=
  match n with
  | O => escapedComment
  | S n' => chunk_chars n' (chunkValue / 96) (escapedComment ++ [Z.rem chunkValue 96 + 32])
  end.

(** [for (i = 0; i < numChunks; ++i)] *)
Fixpoint chunk_loop (numChunks : nat) (data : list Z) (escapedComment : jsstring)
    (pos : nat) : outcome (jsstring * nat) :=
  match numChunks with
  | O => Normal (escapedComment, pos)
  | S n' =>
      '(chunkValue, pos') ← poll data pos 5;
      chunk_loop n' data (chunk_chars 4 chunkValue escapedComment) pos'
  end.

(** The comment block; [Math.ceil(len / 4)] of an integer [len] is
    [(len + 3) / 4]. *)
Definition parse_comment (data : list Z) (pos : nat) : outcome (jsstring * nat) :=
  '(len, pos') ← poll data pos 2;
  let numChunks := Z.to_nat ((len + 3) / 4) in
  '(escapedComment, pos'') ← chunk_loop numChunks data [] pos';
  Normal (percentDecode (take (Z.to_nat len) escapedComment), pos'').

(** One iteration of the page loop. *)
Definition parse_page (data : list Z) (prevPage : FumenPage) (pos : nat)
  : outcome (FumenPage * nat) :=
  '(curField, pos1) ← parse_field data (field prevPage) pos;
  '(d, pos2) ← parse_descriptor data pos1;
  '(comment_, pos3) ← (if d_hasComment d then parse_comment data pos2
                        else Normal (comment newFlags, pos2));
  Normal (mkPage curField (d_piece d)
            (mkFlags (d_raise d) (d_mirror d) (d_color d) (d_lock d) comment_),
          pos3).

(** [while (pos.value < numData.length)] *)
Fixpoint page_loop (fuel : nat) (data : list Z) (prevPage : FumenPage)
    (fumen : list FumenPage) (pos : nat) : outcome (list FumenPage) :=
  if (pos <? length data)%nat then
    match fuel with
    | O => OutOfFuel
    | S fuel' =>
        '(currentPage, pos') ← parse_page data prevPage pos;
        page_loop fuel' data currentPage (fumen ++ [currentPage]) pos'
    end
  else Normal fumen.

(** [decode]: [None] is the [null] result; the [catch] turns every thrown
    error into [null]. *)
Definition decode (data : jsstring) : outcome (option Fumen) :=
  if startsWith data FUMEN_VERSION then
    let data := drop (length FUMEN_VERSION) data in
    let numData := numData_of data in
    match page_loop (S (length numData)) numData newFumenPage [] 0 with
    | Normal fumen => Normal (Some (mkFumen fumen))
    | Throw _ => Normal None
    | OutOfFuel => OutOfFuel
    end
  else Normal None.

(** ** [Fumen.encode] *)

(** The value of one run entry. *)
Definition run_value (lastDiff diffCount : Z) : Z :=
  lastDiff * FIELD_NUM_CELLS + diffCount - 1.

(** [for (i = 0; i < FIELD_NUM_CELLS; ++i)] of the field, [n] iterations from
    index [i]; the state is [result], [lastDiff] and [diffCount].  A cell is
    read with [nth]: this is the source on fields of 240 cells (what
    [FumenPage] builds); on a shorter array the source reads [undefined],
    which is not modelled, so statements on the field of a page carry the
    hypothesis that it has 240 cells. *)
Fixpoint encode_field_loop (n : nat) (curField prevField : list Z) (i : nat)
    (result : jsstring) (lastDiff diffCount : Z) : jsstring * Z * Z :=
  match n with
  | O => (result, lastDiff, diffCount)
  | S n' =>
      let diff := nth i curField 0 - nth i prevField 0 + 8 in
      let '(result, diffCount) :=
        if (0 <? i)%nat && negb (diff =? lastDiff)
        then (result ++ unpoll (run_value lastDiff diffCount) 2, 0)
        else (result, diffCount) in
      encode_field_loop n' curField prevField (S i) result diff (diffCount + 1)
  end.

Definition encode_field (result : jsstring) (curField prevField : list Z) : jsstring :=
  let '(result, lastDiff, diffCount) :=
    encode_field_loop (Z.to_nat FIELD_NUM_CELLS) curField prevField 0 result 0 0 in
  result ++ unpoll (run_value lastDiff diffCount) 2.

Definition pack_descriptor (currentPage : FumenPage) (hasComment : bool) : Z :=
  let value := 0 in
  let value := (if lock (flags currentPage) then 0 else 1) + value * 2 in
  let value := (if hasComment then 1 else 0) + value * 2 in
  let value := (if color (flags currentPage) then 1 else 0) + value * 2 in
  let value := (if mirror (flags currentPage) then 1 else 0) + value * 2 in
  let value := (if raise (flags currentPage) then 1 else 0) + value * 2 in
  let value := location (piece currentPage) + value * FIELD_NUM_CELLS in
  let value := rotation (piece currentPage) + value * 4 in
  let value := type (piece currentPage) + value * 8 in
  value.

(** [for (j = 0; j < 4; ++j)]: the value of the chunk that starts at [i]. *)
Fixpoint chunk_value_loop (n : nat) (escapedComment : jsstring) (i j : nat)
    (chunkValue multiplier : Z) : Z :=
  match n with
  | O => chunkValue
  | S n' =>
      let char :=
        if (i + j <? length escapedComment)%nat
        then nth (i + j) escapedComment 0
        else 32 in
      chunk_value_loop n' escapedComment i (S j)
        (chunkValue + (char - 32) * multiplier) (multiplier * 96)
  end.

(** [for (i = 0; i < escapedComment.length; i += 4)]: the loop body runs for
    [i = 0, 4, 8, ...] below the length, [n] counting the iterations left. *)
Fixpoint encode_chunks_loop (n : nat) (escapedComment : jsstring) (i : nat)
    (result : jsstring) : jsstring :=
  match n with
  | O => result
  | S n' =>
      encode_chunks_loop n' escapedComment (i + 4)
        (result ++ unpoll (chunk_value_loop 4 escapedComment i 0 0 1) 5)
  end.

Definition encode_comment (result : jsstring) (comment_ : jsstring) : jsstring :=
  let escapedComment := percentEncode comment_ in
  let result := result ++ unpoll (Z.of_nat (length escapedComment)) 2 in
  encode_chunks_loop ((length escapedComment + 3) / 4)%nat escapedComment 0 result.

(** The body of [for (const currentPage of this.pages)]. *)
Definition encode_page (result : jsstring) (prevPage currentPage : FumenPage) : jsstring :=
  let result := encode_field result (field currentPage) (field prevPage) in
  let hasComment := (0 <? length (comment (flags currentPage)))%nat in
  let result := result ++ unpoll (pack_descriptor currentPage hasComment) 3 in
  if hasComment then encode_comment result (comment (flags currentPage)) else result.

Fixpoint encode_loop (pages_ : list FumenPage) (prevPage : FumenPage)
    (result : jsstring) : jsstring :=
  match pages_ with
  | [] => result
  | currentPage :: rest =>
      encode_loop rest currentPage (encode_page result prevPage currentPage)
  end.

Definition encode (fumen : Fumen) : jsstring :=
  encode_loop (pages fumen) newFumenPage FUMEN_VERSION.

(** ** Notions used by the statements *)

(** The digits that one character of the text contributes to [numData]. *)
Definition char_digits (char : jsstring) : list Z :=
  if bool_decide (char = lit "?") then [] else [digit_of char].

(** [with_fillers cs cs']: the character sequence [cs'] is [cs] with filler
    characters [?] inserted between (or around) its characters. *)
Inductive with_fillers : list jsstring -> list jsstring -> Prop :=
| wf_done : with_fillers [] []
| wf_keep (c : jsstring) (cs cs' : list jsstring) :
    with_fillers cs cs' -> with_fillers (c :: cs) (c :: cs')
| wf_fill (cs cs' : list jsstring) :
    with_fillers cs cs' -> with_fillers cs (lit "?" :: cs').

(** What [percentEncode] appends for one character. *)
Definition percent_char (char : jsstring) : jsstring :=
  if passes_through char then char
  else
    let hex := toHexUpper (charCodeAt0 char) in
    (lit "%" ++ (if (length hex <? 2)%nat then lit "0" else [])) ++ hex.

(** A code unit below 256 is written either as itself (never [%]) or as
    [%] and two hexadecimal digits that read back as that unit. *)
Definition percent_char_ok (c : Z) : bool :=
  match percent_char [c] with
  | [x] => bool_decide (x = c) && negb (bool_decide (x = 37))
  | [p; h1; h2] =>
      bool_decide (p = 37) && isHexDigit h1 && isHexDigit h2
      && bool_decide (parseHex2 h1 h2 = c)
  | _ => false
  end.

(** Base-64 digits, least significant first, and the character of a digit. *)
Fixpoint digits (n : nat) (value : Z) : list Z :=
  match n with
  | O => []
  | S n' => value mod 64 :: digits n' (value / 64)
  end.

Definition table_char (d : Z) : Z := nth (Z.to_nat d) ENCODE_TABLE 0.

Definition table_char_ok (d : Z) : bool :=
  bool_decide (str_index ENCODE_TABLE d = Some (table_char d))
  && bool_decide (char_digits [table_char d] = [d])
  && negb (isHighSurrogate (table_char d)).

(** The value read back from a group of digits. *)
Fixpoint from_digits (ds : list Z) : Z :=
  match ds with
  | [] => 0
  | d :: ds' => d + 64 * from_digits ds'
  end.

(** The diff of cell [i], as [encode] computes it on fields of 240 cells
    (see [encode_field_loop]). *)
Definition diff_at (curField prevField : list Z) (i : nat) : Z :=
  nth i curField 0 - nth i prevField 0 + 8.

(** The run entries [(lastDiff, diffCount)] in the order in which the field
    loop of [encode] writes them, the entry written after the loop included
    (see [encode_field_runs]). *)
Fixpoint runs_loop (n : nat) (curField prevField : list Z) (i : nat)
    (lastDiff diffCount : Z) : list (Z * Z) :=
  match n with
  | O => [(lastDiff, diffCount)]
  | S n' =>
      let diff := diff_at curField prevField i in
      if (0 <? i)%nat && negb (diff =? lastDiff)
      then (lastDiff, diffCount) :: runs_loop n' curField prevField (S i) diff 1
      else runs_loop n' curField prevField (S i) diff (diffCount + 1)
  end.

Definition field_runs (curField prevField : list Z) : list (Z * Z) :=
  runs_loop (Z.to_nat FIELD_NUM_CELLS) curField prevField 0 0 0.

Definition run_string (r : Z * Z) : jsstring := unpoll (run_value r.1 r.2) 2.
Definition run_digits (r : Z * Z) : list Z := digits 2 (run_value r.1 r.2).

(** [covers cur prev s rs]: the runs [rs] tile the cells from [s] to the end
    of the field, each run [(d, c)] standing for [c >= 1] cells of diff [d]. *)
Inductive covers (curField prevField : list Z) : nat -> list (Z * Z) -> Prop :=
| covers_end : covers curField prevField 240 []
| covers_run (s : nat) (d c : Z) (rs : list (Z * Z)) :
    1 <= c ->
    (forall j, (s <= j < s + Z.to_nat c)%nat -> diff_at curField prevField j = d) ->
    covers curField prevField (s + Z.to_nat c) rs ->
    covers curField prevField s ((d, c) :: rs).

(** The character that the chunk starting at [i] holds at offset [j]: the
    character of the escaped comment, or a space past its end. *)
Definition padded (escapedComment : jsstring) (i j : nat) : Z :=
  if (i + j <? length escapedComment)%nat then nth (i + j) escapedComment 0 else 32.

Definition chunk_value (escapedComment : jsstring) (i : nat) : Z :=
  chunk_value_loop 4 escapedComment i 0 0 1.

(** Digits of [n] chunks from index [i] on, and the characters they hold. *)
Fixpoint chunks_digits (n : nat) (escapedComment : jsstring) (i : nat) : list Z :=
  match n with
  | O => []
  | S n' => digits 5 (chunk_value escapedComment i)
            ++ chunks_digits n' escapedComment (i + 4)
  end.

Fixpoint padded_from (n : nat) (escapedComment : jsstring) (i : nat) : jsstring :=
  match n with
  | O => []
  | S n' => [padded escapedComment i 0; padded escapedComment i 1;
             padded escapedComment i 2; padded escapedComment i 3]
            ++ padded_from n' escapedComment (i + 4)
  end.

Definition comment_digits (comment_ : jsstring) : list Z :=
  let escapedComment := percentEncode comment_ in
  digits 2 (Z.of_nat (length escapedComment))
  ++ chunks_digits ((length escapedComment + 3) / 4)%nat escapedComment 0.

Definition has_comment (page : FumenPage) : bool :=
  (0 <? length (comment (flags page)))%nat.

(** The digits of one page and of a page list, diffed like [encode] does. *)
Definition page_digits (prevPage currentPage : FumenPage) : list Z :=
  flat_map run_digits (field_runs (field currentPage) (field prevPage))
  ++ digits 3 (pack_descriptor currentPage (has_comment currentPage))
  ++ (if has_comment currentPage then comment_digits (comment (flags currentPage))
      else []).

Fixpoint pages_digits (prevPage : FumenPage) (pages_ : list FumenPage) : list Z :=
  match pages_ with
  | [] => []
  | currentPage :: rest =>
      page_digits prevPage currentPage ++ pages_digits currentPage rest
  end.

Definition printable (c : Z) : bool := (32 <=? c) && (c <? 128).

(** The range invariants of a page that follows [prevPage], the piece type
    apart: 240 cells, every run with a diff in [0,17] and a value that two
    digits hold, rotation and location within their radixes, a comment of
    characters up to 255 whose escaped form has at most 4095 characters. *)
Record page_fits (prevPage page : FumenPage) : Prop := mkPageFits {
  fit_field : length (field page) = 240%nat;
  fit_runs : Forall (fun r => 0 <= r.1 <= 17 /\ run_value r.1 r.2 < 4096)
               (field_runs (field page) (field prevPage));
  fit_rotation : 0 <= rotation (piece page) < 4;
  fit_location : 0 <= location (piece page) < 240;
  fit_comment_chars : Forall (fun c => 0 <= c <= 255) (comment (flags page));
  fit_comment_length : (length (percentEncode (comment (flags page))) <= 4095)%nat
}.

(** All range invariants: the piece type is one of the eight that the
    descriptor's radix holds. *)
Definition page_ok (prevPage page : FumenPage) : Prop :=
  page_fits prevPage page /\ 0 <= type (piece page) < 8.

Fixpoint pages_ok (prevPage : FumenPage) (pages_ : list FumenPage) : Prop :=
  match pages_ with
  | [] => True
  | page :: rest => page_ok prevPage page /\ pages_ok page rest
  end.

(** The range invariants with the run bound read as a bound on the diff of
    each run alone, [0 <= diff <= 17], and no bound on the characters of
    the comment. *)
Record page_in_stated_ranges (prevPage page : FumenPage) : Prop := mkStated {
  st_field : length (field page) = 240%nat;
  st_runs : Forall (fun r => 0 <= r.1 <= 17) (field_runs (field page) (field prevPage));
  st_type : 0 <= type (piece page) < 8;
  st_rotation : 0 <= rotation (piece page) < 4;
  st_location : 0 <= location (piece page) < 240;
  st_comment_length : (length (percentEncode (comment (flags page))) <= 4095)%nat
}.

(** Pages of the examples. *)
Definition empty_field : list Z := replicate 240 0.
Definition page_all_nine : FumenPage := mkPage (replicate 240 9) newPiece newFlags.
Definition page_wide_comment : FumenPage :=
  mkPage empty_field newPiece (mkFlags false false true true [256]).
Definition page_T : FumenPage := mkPage empty_field (mkPiece 5 2 0) newFlags.
Definition page_commented : FumenPage :=
  mkPage (<[3%nat := 1]> empty_field) (mkPiece 5 2 7)
    (mkFlags true false true false (lit "Hi, there %41 ~x")).

(** The runs of a field that differs from the previous one in the single
    cell [k], changed from 0 to 1. *)
Definition single_change_runs (k : nat) : list (Z * Z) :=
  (if (k =? 0)%nat then [] else [(8, Z.of_nat k)])
  ++ [(9, 1)]
  ++ (if (k =? 239)%nat then [] else [(8, 239 - Z.of_nat k)]).

(** The page that a page of piece type 8 is read back as: the excess of the
    type digit is carried upwards, so the type is 0 and the counter made of
    rotation, location and the flags raise, mirror, color advances by one. *)
Definition type8_alias (page : FumenPage) : FumenPage :=
  let pc := piece page in
  let fl := flags page in
  if rotation pc <? 3
  then mkPage (field page) (mkPiece 0 (rotation pc + 1) (location pc)) fl
  else if location pc <? 239
  then mkPage (field page) (mkPiece 0 0 (location pc + 1)) fl
  else mkPage (field page) (mkPiece 0 0 0)
         (mkFlags (negb (raise fl)) (xorb (mirror fl) (raise fl))
            (xorb (color fl) (raise fl && mirror fl)) (lock fl) (comment fl)).

(** The carry of a type 8 runs through rotation, location, raise, mirror and
    color and reaches the comment flag. *)
Definition carry_reaches_comment (page : FumenPage) : Prop :=
  rotation (piece page) = 3 /\ location (piece page) = 239
  /\ raise (flags page) = true /\ mirror (flags page) = true
  /\ color (flags page) = true.

Definition page_type8_carry : FumenPage :=
  mkPage empty_field (mkPiece 8 3 239) (mkFlags true true true true []).
Definition page_type8 : FumenPage :=
  mkPage empty_field (mkPiece 8 1 7) (mkFlags true false true true (lit "hi")).


(** The states [(prevPage, fumen.pages, pos.value)] in which the page loop
    of [decode] tests its condition when run on the digits [data]. *)
Inductive loop_reaches (data : list Z) : FumenPage -> list FumenPage -> nat -> Prop :=
| reaches_start : loop_reaches data newFumenPage [] 0
| reaches_page (prevPage : FumenPage) (fumen : list FumenPage) (pos : nat)
    (currentPage : FumenPage) (pos' : nat) :
    loop_reaches data prevPage fumen pos ->
    (pos < length data)%nat ->
    parse_page data prevPage pos = Normal (currentPage, pos') ->
    loop_reaches data currentPage (fumen ++ [currentPage]) pos'.

(** The states [(currentPage.field, cellCount, pos.value)] in which the
    field loop of a page that starts at [pos0] tests its condition. *)
Inductive field_reaches (data prevField : list Z) (pos0 : nat)
  : list Z -> nat -> nat -> Prop :=
| field_start : field_reaches data prevField pos0 (field newFumenPage) 0 pos0
| field_run (curField : list Z) (cellCount pos : nat) (value : Z) (pos' : nat) :
    field_reaches data prevField pos0 curField cellCount pos ->
    Z.of_nat cellCount < FIELD_NUM_CELLS ->
    poll data pos 2 = Normal (value, pos') ->
    field_reaches data prevField pos0
      (fill_run (Z.to_nat (Z.rem value FIELD_NUM_CELLS + 1)) prevField
         (value / FIELD_NUM_CELLS) curField cellCount).1
      (fill_run (Z.to_nat (Z.rem value FIELD_NUM_CELLS + 1)) prevField
         (value / FIELD_NUM_CELLS) curField cellCount).2
      pos'.

(** [polls data pos count]: running on the digits [data], [decode] calls
    [poll(numData, pos, count)], for a field run, for the packed descriptor,
    for the length of a comment or for one of its chunks. *)
Inductive polls (data : list Z) : nat -> nat -> Prop :=
| polls_run (prevPage : FumenPage) (fumen : list FumenPage) (pos0 : nat)
    (curField : list Z) (cellCount pos : nat) :
    loop_reaches data prevPage fumen pos0 -> (pos0 < length data)%nat ->
    field_reaches data (field prevPage) pos0 curField cellCount pos ->
    Z.of_nat cellCount < FIELD_NUM_CELLS ->
    polls data pos 2
| polls_descriptor (prevPage : FumenPage) (fumen : list FumenPage) (pos0 : nat)
    (curField : list Z) (pos1 : nat) :
    loop_reaches data prevPage fumen pos0 -> (pos0 < length data)%nat ->
    parse_field data (field prevPage) pos0 = Normal (curField, pos1) ->
    polls data pos1 3
| polls_length (prevPage : FumenPage) (fumen : list FumenPage) (pos0 : nat)
    (curField : list Z) (pos1 : nat) (d : Descriptor) (pos2 : nat) :
    loop_reaches data prevPage fumen pos0 -> (pos0 < length data)%nat ->
    parse_field data (field prevPage) pos0 = Normal (curField, pos1) ->
    parse_descriptor data pos1 = Normal (d, pos2) ->
    d_hasComment d = true ->
    polls data pos2 2
| polls_chunk (prevPage : FumenPage) (fumen : list FumenPage) (pos0 : nat)
    (curField : list Z) (pos1 : nat) (d : Descriptor) (pos2 : nat)
    (len : Z) (pos3 i : nat) :
    loop_reaches data prevPage fumen pos0 -> (pos0 < length data)%nat ->
    parse_field data (field prevPage) pos0 = Normal (curField, pos1) ->
    parse_descriptor data pos1 = Normal (d, pos2) ->
    d_hasComment d = true ->
    poll data pos2 2 = Normal (len, pos3) ->
    (i < Z.to_nat ((len + 3) / 4))%nat ->
    (pos3 + 5 * i <= length data)%nat ->
    polls data (pos3 + 5 * i) 5.

(** ** The remaining methods of [Fumen] *)

(** [addPage(newPage)]: [this.pages.push(newPage)]. *)
Definition addPage (fumen : Fumen) (newPage : FumenPage) : Fumen :=
  mkFumen (pages fumen ++ [newPage]).

(** [getPages()] *)
Definition getPages (fumen : Fumen) : list FumenPage := pages fumen.

(** [chained P prevPage pages]: [P] relates every page of the list to the
    page before it, the first one to [prevPage]. *)
Fixpoint chained (P : FumenPage -> FumenPage -> Prop) (prevPage : FumenPage)
    (pages_ : list FumenPage) : Prop :=
  match pages_ with
  | [] => True
  | page :: rest => P prevPage page /\ chained P page rest
  end.

(** The characters that [percentEncode] can write: digits, letters, the
    four marks [-], [_], [.], [~], and the escape character [%]. *)
Definition url_safe (c : Z) : bool :=
  ((48 <=? c) && (c <=? 57)) || ((65 <=? c) && (c <=? 90))
  || ((97 <=? c) && (c <=? 122))
  || bool_decide (c ∈ [45; 95; 46; 126; 37]).

(** The number of cells that a list of run entries stands for. *)
Definition run_cells (rs : list (Z * Z)) : Z := foldr (fun r acc => r.2 + acc) 0 rs.

(** Neighbouring run entries have different diffs. *)
Fixpoint diffs_alternate (rs : list (Z * Z)) : Prop :=
  match rs with
  | r1 :: ((r2 :: _) as rest) => r1.1 <> r2.1 /\ diffs_alternate rest
  | _ => True
  end.

(** The page that a descriptor value and a comment make. *)
Definition page_of_descriptor (curField : list Z) (d : Descriptor) (comment_ : jsstring)
  : FumenPage :=
  mkPage curField (d_piece d)
    (mkFlags (d_raise d) (d_mirror d) (d_color d) (d_lock d) comment_).

(** The text in which every character that is neither a character of
    [ENCODE_TABLE] nor the filler [?] is replaced by [A], the character of
    digit 0. *)
Definition known_char (char : jsstring) : bool :=
  bool_decide (is_Some (DECODE_TABLE !! char)) || bool_decide (char = lit "?").

Definition as_A (char : jsstring) : jsstring :=
  if known_char char then char else lit "A".

Definition unknown_as_A (data : jsstring) : jsstring :=
  concat (map as_A (chars data)).

(** What [encode] writes for a page after the run entries of its field:
    the packed descriptor and, for a page with a comment, the comment
    block. *)
Definition page_tail (page : FumenPage) : jsstring :=
  let hasComment := (0 <? length (comment (flags page)))%nat in
  unpoll (pack_descriptor page hasComment) 3
  ++ (if hasComment then encode_comment [] (comment (flags page)) else []).

(** ** Proof steps used throughout *)

(** Unfold one [bind] of an outcome. *)
Ltac bind_step := cbn [mbind outcome_bind].

(** Decide a closed, decidable statement by evaluation. *)
Ltac by_computation := apply (bool_decide_unpack _); vm_compute; exact I.

(** The range invariants of a concrete page. *)
Ltac page_fits_computed :=
  constructor; [reflexivity | by_computation | cbn; lia | cbn; lia
               | by_computation | vm_compute; lia].

Ltac page_ok_computed := split; [page_fits_computed | cbn; lia].

(** * Properties *)

(** ** The cursor and the fuel *)


Lemma poll_cases (data : list Z) (pos count : nat) :
  ((length data < pos + count)%nat /\
     poll data pos count = Throw "Data stream ended unexpectedly during poll.")
  \/ ((pos + count <= length data)%nat /\
     poll data pos count = Normal (poll_loop count data pos 0 1, (pos + count)%nat)).
Proof.
  unfold poll. destruct (Nat.ltb_spec (length data) (pos + count)); [left | right]; auto.
Qed.

Lemma poll_loop_nonneg (n : nat) (data : list Z) :
  Forall (fun d => 0 <= d) data ->
  forall idx value multiplier,
    0 <= value -> 0 <= multiplier -> 0 <= poll_loop n data idx value multiplier.
Proof.
  intros Hd. induction n as [|n IH]; intros idx value m Hv Hm; simpl; [assumption|].
  apply IH; [|lia].
  assert (0 <= nth idx data 0).
  { destruct (nth_in_or_default idx data 0) as [Hin | ->]; [|lia].
    rewrite Forall_forall in Hd. apply Hd. by apply list_elem_of_In. }
  nia.
Qed.

Lemma poll_normal_inv (data : list Z) (pos count : nat) v pos' :
  poll data pos count = Normal (v, pos') ->
  v = poll_loop count data pos 0 1 /\ pos' = (pos + count)%nat
  /\ (pos + count <= length data)%nat.
Proof.
  destruct (poll_cases data pos count) as [[_ ->] | [Hle ->]]; [discriminate|].
  intros [= <- <-]. auto.
Qed.

Lemma fill_run_count (n : nat) prevField diff curField cellCount :
  (cellCount <= 240)%nat ->
  (fill_run n prevField diff curField cellCount).2 = Nat.min (cellCount + n) 240.
Proof.
  revert curField cellCount.
  induction n as [|n IH]; intros curField cellCount Hle; simpl; [lia|].
  change FIELD_NUM_CELLS with 240.
  destruct (Z.ltb_spec (Z.of_nat cellCount) 240); simpl.
  - rewrite IH; lia.
  - lia.
Qed.

Lemma field_loop_runs (data prevField : list Z) :
  Forall (fun d => 0 <= d) data ->
  forall fuel curField cellCount pos,
    (cellCount <= 240)%nat -> (240 - cellCount <= fuel)%nat ->
    (exists msg, field_loop fuel data prevField curField cellCount pos = Throw msg)
    \/ (exists curField' pos',
          field_loop fuel data prevField curField cellCount pos = Normal (curField', pos')
          /\ (pos <= pos')%nat /\ ((cellCount < 240)%nat -> (pos < pos')%nat)).
Proof.
  intros Hd. induction fuel as [|fuel IH]; intros curField cellCount pos Hcc Hfuel.
  - right. exists curField, pos. cbn [field_loop]. change FIELD_NUM_CELLS with 240.
    destruct (Z.ltb_spec (Z.of_nat cellCount) 240); [lia|]. split; [reflexivity|lia].
  - cbn [field_loop]. change FIELD_NUM_CELLS with 240.
    destruct (Z.ltb_spec (Z.of_nat cellCount) 240) as [Hlt|Hge].
    2:{ right. exists curField, pos. split; [reflexivity|lia]. }
    destruct (poll_cases data pos 2) as [[_ ->] | [Hle ->]]; bind_step.
    { left. eauto. }
    set (value := poll_loop 2 data pos 0 1).
    assert (0 <= value) by (apply poll_loop_nonneg; auto; lia).
    assert (Hrem : 0 <= Z.rem value 240) by (apply Z.rem_nonneg; lia).
    pose proof (fill_run_count (Z.to_nat (Z.rem value 240 + 1)) prevField
                  (value / 240) curField cellCount Hcc) as Hcnt.
    destruct (fill_run _ prevField (value / 240) curField cellCount)
      as [curField' cellCount'] eqn:Hfill. cbn [snd] in Hcnt.
    destruct (IH curField' cellCount' (pos + 2)%nat ltac:(lia) ltac:(lia))
      as [[msg Hm] | (f & p & Hn & Hp & _)]; [left; eauto | right].
    exists f, p. split; [assumption|]. lia.
Qed.

Lemma chunk_loop_runs (data : list Z) (numChunks : nat) escapedComment pos :
  (exists msg, chunk_loop numChunks data escapedComment pos = Throw msg)
  \/ (exists escaped' pos',
        chunk_loop numChunks data escapedComment pos = Normal (escaped', pos')
        /\ (pos <= pos')%nat).
Proof.
  revert escapedComment pos.
  induction numChunks as [|n IH]; intros escapedComment pos; cbn [chunk_loop].
  - right; eauto.
  - destruct (poll_cases data pos 5) as [[_ ->] | [Hle ->]]; bind_step; [left; eauto|].
    destruct (IH (chunk_chars 4 (poll_loop 5 data pos 0 1) escapedComment) (pos + 5)%nat)
      as [[msg Hm] | (e & p & Hn & Hp)]; [left; eauto | right].
    exists e, p. split; [assumption | lia].
Qed.

Lemma parse_comment_runs (data : list Z) (pos : nat) :
  (exists msg, parse_comment data pos = Throw msg)
  \/ (exists c pos', parse_comment data pos = Normal (c, pos') /\ (pos <= pos')%nat).
Proof.
  unfold parse_comment.
  destruct (poll_cases data pos 2) as [[_ ->] | [Hle ->]]; bind_step; [left; eauto|].
  set (len := poll_loop 2 data pos 0 1).
  destruct (chunk_loop_runs data (Z.to_nat ((len + 3) / 4)) [] (pos + 2)%nat)
    as [[msg ->] | (e & p & -> & Hp)]; bind_step; [left; eauto | right].
  eexists _, p. split; [reflexivity | lia].
Qed.

Lemma parse_page_runs (data : list Z) (prevPage : FumenPage) (pos : nat) :
  Forall (fun d => 0 <= d) data ->
  (exists msg, parse_page data prevPage pos = Throw msg)
  \/ (exists page pos', parse_page data prevPage pos = Normal (page, pos')
                        /\ (pos < pos')%nat).
Proof.
  intros Hd. unfold parse_page, parse_field.
  change (Z.to_nat FIELD_NUM_CELLS) with 240%nat.
  destruct (field_loop_runs data (field prevPage) Hd 240%nat
              (field newFumenPage) 0%nat pos ltac:(lia) ltac:(lia))
    as [[msg ->] | (f & p1 & -> & _ & Hp1)]; bind_step; [left; eauto |].
  unfold parse_descriptor.
  destruct (poll_cases data p1 3) as [[_ ->] | [Hle ->]]; bind_step; [left; eauto|].
  cbn [d_hasComment].
  destruct (d_hasComment _).
  - destruct (parse_comment_runs data (p1 + 3)%nat) as [[msg ->] | (c & p3 & -> & Hp3)];
      simpl; [left; eauto | right].
    eexists _, p3. split; [reflexivity | lia].
  - bind_step. right. eexists _, _. split; [reflexivity | lia].
Qed.

Lemma page_loop_runs (data : list Z) :
  Forall (fun d => 0 <= d) data ->
  forall fuel prevPage fumen pos,
    (length data - pos < fuel)%nat ->
    (exists msg, page_loop fuel data prevPage fumen pos = Throw msg)
    \/ (exists fumen', page_loop fuel data prevPage fumen pos = Normal fumen').
Proof.
  intros Hd. induction fuel as [|fuel IH]; intros prevPage fumen pos Hfuel; [lia|].
  cbn [page_loop]. destruct (Nat.ltb_spec pos (length data)); [|right; eauto].
  destruct (parse_page_runs data prevPage pos Hd) as [[msg ->] | (pg & p & -> & Hp)];
    bind_step; [left; eauto|].
  apply IH. lia.
Qed.

(** ** The digit stream *)

Lemma decode_table_range :
  map_Forall (fun _ v => 0 <= v < 64) DECODE_TABLE.
Proof.
  apply map_Forall_to_list.
  set (l := map_to_list DECODE_TABLE). vm_compute in l. subst l.
  repeat (constructor; [cbn; lia|]). constructor.
Qed.

Lemma digit_of_range (char : jsstring) : 0 <= digit_of char < 64.
Proof.
  unfold digit_of. destruct (DECODE_TABLE !! char) as [v|] eqn:E; [|lia].
  exact (decode_table_range char v E).
Qed.

Lemma numData_of_flat_map (data : jsstring) :
  numData_of data = flat_map char_digits (chars data).
Proof.
  unfold numData_of.
  assert (G : forall l acc,
             foldl (fun numData char =>
                      if bool_decide (char = lit "?") then numData
                      else numData ++ [digit_of char]) acc l
             = acc ++ flat_map char_digits l).
  { induction l as [|ch l IH]; intros acc; cbn [foldl flat_map].
    - by rewrite app_nil_r.
    - rewrite IH. unfold char_digits at 2.
      destruct (bool_decide (ch = lit "?")); cbn [app]; [reflexivity|].
      by rewrite <- app_assoc. }
  apply (G (chars data) []).
Qed.

Lemma numData_of_range (data : jsstring) :
  Forall (fun d => 0 <= d < 64) (numData_of data).
Proof.
  rewrite numData_of_flat_map.
  induction (chars data) as [|ch l IH]; cbn [flat_map]; [constructor|].
  apply Forall_app. split; [|assumption].
  unfold char_digits. destruct (bool_decide _); constructor; [|constructor].
  apply digit_of_range.
Qed.

Lemma numData_of_nonneg (data : jsstring) :
  Forall (fun d => 0 <= d) (numData_of data).
Proof. eapply Forall_impl; [apply numData_of_range|]. cbn. lia. Qed.

Lemma with_fillers_digits (cs cs' : list jsstring) :
  with_fillers cs cs' -> flat_map char_digits cs' = flat_map char_digits cs.
Proof.
  induction 1 as [|c cs cs' _ IH|cs cs' _ IH]; cbn [flat_map]; [reflexivity| |].
  - by rewrite IH.
  - rewrite IH. reflexivity.
Qed.

Lemma decode_tagged (body : jsstring) :
  decode (FUMEN_VERSION ++ body)
  = match page_loop (S (length (numData_of body))) (numData_of body) newFumenPage [] 0 with
    | Normal fumen => Normal (Some (mkFumen fumen))
    | Throw _ => Normal None
    | OutOfFuel => OutOfFuel
    end.
Proof.
  unfold decode, startsWith.
  rewrite take_app_length, bool_decide_eq_true_2 by reflexivity.
  by rewrite drop_app_length.
Qed.

(** ** Claims on [decode] alone *)

(** C3: an input that does not begin with the format tag [v115@] decodes to
    [null]: the result is the normal return of [null], neither a thrown
    error nor a page list. *)
Theorem decode_without_tag_is_null (data : jsstring) :
  startsWith data FUMEN_VERSION = false -> decode data = Normal None.
Proof. intros H. unfold decode. by rewrite H. Qed.

Lemma decode_without_tag_is_null_witness :
  startsWith (lit "v114@vhVgH") FUMEN_VERSION = false
  /\ decode (lit "v114@vhVgH") = Normal None.
Proof.
  split; [reflexivity|].
  apply (decode_without_tag_is_null (lit "v114@vhVgH")). reflexivity.
Defined.

(** C5: fillers [?] inserted between the characters that follow the format
    tag change neither the digit stream [numData] (a filler pushes no digit,
    so the cursor never counts it) nor the result of [decode]. *)
Theorem decode_ignores_fillers (body body' : jsstring) :
  with_fillers (chars body) (chars body') ->
  numData_of body' = numData_of body
  /\ decode (FUMEN_VERSION ++ body') = decode (FUMEN_VERSION ++ body).
Proof.
  intros H.
  assert (E : numData_of body' = numData_of body).
  { rewrite !numData_of_flat_map. by apply with_fillers_digits. }
  split; [exact E|]. rewrite !decode_tagged. by rewrite E.
Qed.

Lemma decode_ignores_fillers_witness :
  with_fillers (chars (lit "vhVgH")) (chars (lit "?v?hV??gH?"))
  /\ numData_of (lit "?v?hV??gH?") = numData_of (lit "vhVgH")
  /\ decode (FUMEN_VERSION ++ lit "?v?hV??gH?") = decode (FUMEN_VERSION ++ lit "vhVgH").
Proof.
  assert (W : with_fillers (chars (lit "vhVgH")) (chars (lit "?v?hV??gH?"))).
  { vm_compute. repeat (first [apply wf_done | apply wf_keep | apply wf_fill]). }
  split; [exact W|].
  exact (decode_ignores_fillers (lit "vhVgH") (lit "?v?hV??gH?") W).
Defined.

(** C10: [decode] returns on every input string, and what it returns is a
    [Fumen] object or [null]: it throws nothing to its caller (the error
    thrown by [poll] is caught and becomes [null]) and its loops end. *)
Theorem decode_total (data : jsstring) :
  exists r : option Fumen, decode data = Normal r.
Proof.
  unfold decode. destruct (startsWith data FUMEN_VERSION); [|eauto].
  set (numData := numData_of (drop (length FUMEN_VERSION) data)).
  destruct (page_loop_runs numData (numData_of_nonneg _) (S (length numData))
              newFumenPage [] 0%nat ltac:(lia)) as [[msg ->] | [fumen ->]]; eauto.
Qed.

(** ** The percent codec *)

Lemma percentEncode_step_app (result char : jsstring) :
  percentEncode_step result char = result ++ percent_char char.
Proof.
  unfold percentEncode_step, percent_char.
  destruct (passes_through char); reflexivity.
Qed.

Lemma percentEncode_flat_map (str : jsstring) :
  percentEncode str = flat_map percent_char (chars str).
Proof.
  unfold percentEncode.
  assert (G : forall l acc,
             foldl percentEncode_step acc l = acc ++ flat_map percent_char l).
  { induction l as [|ch l IH]; intros acc; cbn [foldl flat_map].
    - by rewrite app_nil_r.
    - by rewrite IH, percentEncode_step_app, <- app_assoc. }
  apply (G (chars str) []).
Qed.

Lemma chars_single_units (s : jsstring) :
  Forall (fun c => isHighSurrogate c = false) s -> chars s = map (fun c => [c]) s.
Proof.
  induction 1 as [|c s Hc _ IH]; [reflexivity|].
  cbn [chars map]. destruct s as [|d s']; [reflexivity|].
  rewrite Hc. cbn [andb]. by rewrite IH.
Qed.

Lemma percent_char_ok_bytes :
  forallb percent_char_ok (map Z.of_nat (seq 0 256)) = true.
Proof. vm_compute. reflexivity. Qed.

Lemma percent_char_ok_byte (c : Z) : 0 <= c <= 255 -> percent_char_ok c = true.
Proof.
  intros Hc. pose proof percent_char_ok_bytes as H.
  rewrite forallb_forall in H. apply H.
  apply in_map_iff. exists (Z.to_nat c). split; [lia|].
  apply in_seq. lia.
Qed.

Lemma percentDecode_loop_char (c : Z) (rest result : jsstring) :
  0 <= c <= 255 ->
  percentDecode_loop (percent_char [c] ++ rest) result
  = percentDecode_loop rest (result ++ [c]).
Proof.
  intros Hc. pose proof (percent_char_ok_byte c Hc) as Hok.
  unfold percent_char_ok in Hok.
  destruct (percent_char [c]) as [|x [|h1 [|h2 [|? ?]]]]; try discriminate.
  - apply andb_prop in Hok as [Hx Hne].
    apply bool_decide_eq_true_1 in Hx. subst x.
    apply negb_true_iff in Hne.
    cbn [app percentDecode_loop]. rewrite Hne.
    destruct rest as [|r1 [|r2 rest']]; reflexivity.
  - apply andb_prop in Hok as [Hok Hv]. apply andb_prop in Hok as [Hok H2].
    apply andb_prop in Hok as [Hp H1].
    apply bool_decide_eq_true_1 in Hp, Hv. subst x c.
    cbn [app percentDecode_loop]. rewrite H1, H2. reflexivity.
Qed.

Lemma percentDecode_loop_encoded (s rest result : jsstring) :
  Forall (fun c => 0 <= c <= 255) s ->
  percentDecode_loop (flat_map percent_char (map (fun c => [c]) s) ++ rest) result
  = percentDecode_loop rest (result ++ s).
Proof.
  intros Hs. revert result.
  induction Hs as [|c s Hc _ IH]; intros result; cbn [map flat_map app].
  - by rewrite app_nil_r.
  - rewrite <- app_assoc, percentDecode_loop_char by assumption.
    rewrite IH. by rewrite <- app_assoc.
Qed.

Lemma bytes_no_surrogate (s : jsstring) :
  Forall (fun c => 0 <= c <= 255) s ->
  Forall (fun c => isHighSurrogate c = false) s.
Proof.
  intros H. eapply Forall_impl; [exact H|].
  intros c Hc. cbn beta in Hc. unfold isHighSurrogate.
  destruct (Z.leb_spec 0xD800 c); [lia|reflexivity].
Qed.

Lemma percentEncode_bytes (s : jsstring) :
  Forall (fun c => 0 <= c <= 255) s ->
  percentEncode s = flat_map percent_char (map (fun c => [c]) s).
Proof.
  intros Hs. by rewrite percentEncode_flat_map, chars_single_units
    by (by apply bytes_no_surrogate).
Qed.

Lemma percentDecode_encoded (s : jsstring) :
  Forall (fun c => 0 <= c <= 255) s ->
  percentDecode (percentEncode s) = s.
Proof.
  intros Hs. unfold percentDecode. rewrite percentEncode_bytes by assumption.
  pose proof (percentDecode_loop_encoded s [] [] Hs) as H.
  rewrite app_nil_r in H. rewrite H. reflexivity.
Qed.

(** C4: [percentDecode] undoes [percentEncode] on every string whose
    characters all have a code of at most 255. *)
Theorem percentDecode_percentEncode (s : jsstring) :
  Forall (fun c => 0 <= c <= 255) s ->
  percentDecode (percentEncode s) = s.
Proof. exact (percentDecode_encoded s). Qed.

Lemma percentDecode_percentEncode_witness :
  Forall (fun c => 0 <= c <= 255) (lit "50% of a-b_c.d~e" ++ [10; 255; 0])
  /\ percentDecode (percentEncode (lit "50% of a-b_c.d~e" ++ [10; 255; 0]))
     = lit "50% of a-b_c.d~e" ++ [10; 255; 0].
Proof.
  assert (W : Forall (fun c => 0 <= c <= 255) (lit "50% of a-b_c.d~e" ++ [10; 255; 0])).
  { apply (bool_decide_unpack _). vm_compute. exact I. }
  split; [exact W|].
  exact (percentDecode_percentEncode _ W).
Defined.

(** ** Run values *)

(** C7, as the claim states it, fails: a run of all 240 cells with diff 17
    has the value 4319, which two base-64 digits cannot hold. *)
Lemma run_value_17_overflows :
  ~ (forall diff runLength : Z,
        0 <= diff <= 17 -> 1 <= runLength <= 240 ->
        run_value diff runLength < 4096).
Proof.
  intros H. specialize (H 17 240 ltac:(lia) ltac:(lia)).
  unfold run_value in H. change FIELD_NUM_CELLS with 240 in H. lia.
Qed.

(** C7, amended: for a diff in [0,17] and a run length in [1,240], the run
    value [diff * 240 + (runLength - 1)] is below 4096 exactly when the diff
    is at most 16 or the run has at most 16 cells; so every diff in [0,16]
    fits two base-64 digits with every run length. *)
Theorem run_value_fits_two_digits (diff runLength : Z) :
  0 <= diff <= 17 -> 1 <= runLength <= 240 ->
  (run_value diff runLength < 4096 <-> (diff <= 16 \/ runLength <= 16)).
Proof.
  intros Hd Hr. unfold run_value. change FIELD_NUM_CELLS with 240. lia.
Qed.

Lemma run_value_fits_two_digits_witness :
  (0 <= 16 <= 17) /\ (1 <= 240 <= 240)
  /\ (run_value 16 240 < 4096 <-> (16 <= 16 \/ 240 <= 16)).
Proof.
  split; [lia|]. split; [lia|].
  apply (run_value_fits_two_digits 16 240); lia.
Defined.

(** ** Digits and characters *)

Lemma table_char_ok_all :
  forallb table_char_ok (map Z.of_nat (seq 0 64)) = true.
Proof. vm_compute. reflexivity. Qed.

Lemma table_char_ok_digit (d : Z) : 0 <= d < 64 -> table_char_ok d = true.
Proof.
  intros Hd. pose proof table_char_ok_all as H.
  rewrite forallb_forall in H. apply H.
  apply in_map_iff. exists (Z.to_nat d). split; [lia|].
  apply in_seq. lia.
Qed.

Lemma table_char_facts (d : Z) :
  0 <= d < 64 ->
  str_index ENCODE_TABLE d = Some (table_char d)
  /\ char_digits [table_char d] = [d]
  /\ isHighSurrogate (table_char d) = false.
Proof.
  intros Hd. pose proof (table_char_ok_digit d Hd) as H. unfold table_char_ok in H.
  apply andb_prop in H as [H H3]. apply andb_prop in H as [H1 H2].
  apply bool_decide_eq_true_1 in H1, H2. apply negb_true_iff in H3. auto.
Qed.

Lemma digits_length (n : nat) (value : Z) : length (digits n value) = n.
Proof. revert value. induction n as [|n IH]; intros v; cbn; [reflexivity|]. by rewrite IH. Qed.

Lemma digits_range (n : nat) (value : Z) :
  Forall (fun d => 0 <= d < 64) (digits n value).
Proof.
  revert value. induction n as [|n IH]; intros v; cbn [digits]; constructor; [|apply IH].
  apply Z.mod_pos_bound. lia.
Qed.

Lemma from_digits_digits (n : nat) (value : Z) :
  0 <= value < 64 ^ Z.of_nat n -> from_digits (digits n value) = value.
Proof.
  revert value. induction n as [|n IH]; intros v Hv; cbn [digits from_digits].
  - cbn in Hv. lia.
  - rewrite Nat2Z.inj_succ, Z.pow_succ_r in Hv by lia.
    rewrite IH.
    + pose proof (Z.div_mod v 64). lia.
    + split; [apply Z.div_pos; lia|]. apply Z.div_lt_upper_bound; lia.
Qed.

Lemma unpoll_loop_digits (n : nat) (value : Z) (result : jsstring) :
  0 <= value ->
  unpoll_loop n value result = result ++ map table_char (digits n value).
Proof.
  revert value result. induction n as [|n IH]; intros v result Hv; cbn [unpoll_loop digits map].
  - by rewrite app_nil_r.
  - rewrite IH by (apply Z.div_pos; lia).
    rewrite Z.rem_mod_nonneg by lia.
    destruct (table_char_facts (v mod 64)) as [-> _]; [apply Z.mod_pos_bound; lia|].
    unfold append_value. by rewrite <- app_assoc.
Qed.

Lemma unpoll_digits (value : Z) (n : nat) :
  0 <= value -> unpoll value n = map table_char (digits n value).
Proof. intros Hv. unfold unpoll. by rewrite unpoll_loop_digits. Qed.

Lemma chars_app_single_units (a b : jsstring) :
  Forall (fun c => isHighSurrogate c = false) a ->
  chars (a ++ b) = map (fun c => [c]) a ++ chars b.
Proof.
  induction 1 as [|c a Hc _ IH]; [reflexivity|].
  change ((c :: a) ++ b) with (c :: (a ++ b)). cbn [chars map app].
  rewrite <- IH. destruct (a ++ b) as [|d r] eqn:E; [reflexivity|].
  by rewrite Hc.
Qed.

Lemma numData_of_table_chars (ds : list Z) (rest : jsstring) :
  Forall (fun d => 0 <= d < 64) ds ->
  numData_of (map table_char ds ++ rest) = ds ++ numData_of rest.
Proof.
  intros Hds. rewrite !numData_of_flat_map, chars_app_single_units.
  - rewrite flat_map_app. f_equal.
    induction Hds as [|d ds Hd _ IH]; [reflexivity|].
    cbn [map flat_map]. rewrite IH.
    destruct (table_char_facts d Hd) as (_ & -> & _). reflexivity.
  - induction Hds as [|d ds Hd _ IH]; cbn [map]; constructor; [|assumption].
    by destruct (table_char_facts d Hd) as (_ & _ & ->).
Qed.

Lemma poll_loop_from_digits (ds pre post : list Z) (value multiplier : Z) :
  poll_loop (length ds) (pre ++ ds ++ post) (length pre) value multiplier
  = value + multiplier * from_digits ds.
Proof.
  revert pre value multiplier.
  induction ds as [|d ds IH]; intros pre value m; cbn [length poll_loop from_digits]; [lia|].
  rewrite app_nth2, Nat.sub_diag by lia. cbn [nth app].
  pose proof (IH (pre ++ [d]) (value + d * m) (m * 64)) as H.
  rewrite <- app_assoc, length_app in H. cbn [length app] in H.
  rewrite Nat.add_1_r in H. rewrite H. lia.
Qed.

Lemma poll_digits (n : nat) (value : Z) (pre post : list Z) :
  0 <= value < 64 ^ Z.of_nat n ->
  poll (pre ++ digits n value ++ post) (length pre) n
  = Normal (value, (length pre + n)%nat).
Proof.
  intros Hv. unfold poll.
  destruct (Nat.ltb_spec (length (pre ++ digits n value ++ post)) (length pre + n)) as [H|_].
  { rewrite !length_app, digits_length in H. lia. }
  pose proof (poll_loop_from_digits (digits n value) pre post 0 1) as H.
  rewrite digits_length in H. rewrite H, from_digits_digits by assumption.
  do 2 f_equal. lia.
Qed.

(** ** The field: runs written by [encode], cells rebuilt by [decode] *)

Lemma encode_field_loop_runs (n : nat) (curField prevField : list Z) (i : nat)
    (result : jsstring) (lastDiff diffCount : Z) :
  let '(r, l, c) := encode_field_loop n curField prevField i result lastDiff diffCount in
  r ++ unpoll (run_value l c) 2
  = result ++ flat_map run_string (runs_loop n curField prevField i lastDiff diffCount).
Proof.
  revert i result lastDiff diffCount.
  induction n as [|n IH]; intros i result lastDiff diffCount;
    cbn [encode_field_loop runs_loop flat_map].
  - by rewrite app_nil_r.
  - fold (diff_at curField prevField i).
    destruct ((0 <? i)%nat && negb (diff_at curField prevField i =? lastDiff)).
    + specialize (IH (S i) (result ++ unpoll (run_value lastDiff diffCount) 2)
                    (diff_at curField prevField i) (0 + 1)).
      destruct (encode_field_loop n _ _ _ _ _ _) as [[r l] c].
      rewrite IH. cbn [flat_map]. by rewrite <- app_assoc.
    + apply IH.
Qed.

Lemma encode_field_runs (result : jsstring) (curField prevField : list Z) :
  encode_field result curField prevField
  = result ++ flat_map run_string (field_runs curField prevField).
Proof.
  unfold encode_field, field_runs.
  pose proof (encode_field_loop_runs (Z.to_nat FIELD_NUM_CELLS) curField prevField
                0 result 0 0) as H.
  destruct (encode_field_loop _ _ _ _ _ _ _) as [[r l] c]. exact H.
Qed.

Lemma covers_bound (curField prevField : list Z) (s : nat) (rs : list (Z * Z)) :
  covers curField prevField s rs -> (s <= 240)%nat.
Proof. induction 1; lia. Qed.

Lemma runs_loop_covers (curField prevField : list Z) (n : nat) :
  forall (i : nat) (lastDiff diffCount : Z),
    (i + n = 240)%nat -> 1 <= diffCount <= Z.of_nat i ->
    (forall j, (i - Z.to_nat diffCount <= j < i)%nat ->
               diff_at curField prevField j = lastDiff) ->
    covers curField prevField (i - Z.to_nat diffCount)
      (runs_loop n curField prevField i lastDiff diffCount).
Proof.
  induction n as [|n IH]; intros i lastDiff diffCount Hin Hcnt Hrun; cbn [runs_loop].
  - apply covers_run; [lia | intros j Hj; apply Hrun; lia |].
    replace (i - Z.to_nat diffCount + Z.to_nat diffCount)%nat with 240%nat by lia.
    constructor.
  - destruct (Nat.ltb_spec 0 i) as [Hi|Hi]; [|lia]. cbn [andb].
    destruct (Z.eqb_spec (diff_at curField prevField i) lastDiff) as [Heq|Hne]; cbn [negb].
    + replace (i - Z.to_nat diffCount)%nat with (S i - Z.to_nat (diffCount + 1))%nat by lia.
      apply IH; [lia | lia |]. intros j Hj.
      destruct (decide (j = i)) as [->|Hji]; [reflexivity|].
      rewrite Heq. apply Hrun. lia.
    + apply covers_run; [lia | intros j Hj; apply Hrun; lia |].
      replace (i - Z.to_nat diffCount + Z.to_nat diffCount)%nat with (S i - Z.to_nat 1)%nat by lia.
      apply IH; [lia | lia |]. intros j Hj.
      replace j with i by lia. reflexivity.
Qed.

Lemma runs_loop_first (n : nat) (curField prevField : list Z) (lastDiff diffCount : Z) :
  runs_loop (S n) curField prevField 0 lastDiff diffCount
  = runs_loop n curField prevField 1 (diff_at curField prevField 0) (diffCount + 1).
Proof. reflexivity. Qed.

Lemma field_runs_covers (curField prevField : list Z) :
  covers curField prevField 0 (field_runs curField prevField).
Proof.
  unfold field_runs. change (Z.to_nat FIELD_NUM_CELLS) with (S 239).
  rewrite runs_loop_first.
  apply (runs_loop_covers curField prevField 239 1 (diff_at curField prevField 0) (0 + 1));
    [lia | lia |].
  intros j Hj. replace j with 0%nat by lia. reflexivity.
Qed.

Lemma fill_run_cells (curField prevField : list Z) (diff : Z) :
  length curField = 240%nat ->
  forall (n s : nat),
    (s + n <= 240)%nat ->
    (forall j, (s <= j < s + n)%nat -> diff_at curField prevField j = diff) ->
    fill_run n prevField diff (take s curField ++ replicate (240 - s) 0) s
    = (take (s + n) curField ++ replicate (240 - (s + n)) 0, (s + n)%nat).
Proof.
  intros Hlen. induction n as [|n IH]; intros s Hs Hrun; cbn [fill_run].
  - by rewrite Nat.add_0_r.
  - change FIELD_NUM_CELLS with 240.
    destruct (Z.ltb_spec (Z.of_nat s) 240) as [_|?]; [|lia].
    assert (Hcell : nth s prevField 0 + diff - 8 = nth s curField 0).
    { specialize (Hrun s ltac:(lia)). unfold diff_at in Hrun. lia. }
    destruct (lookup_lt_is_Some_2 curField s ltac:(lia)) as [x Hx].
    rewrite Hcell, (nth_lookup_Some _ _ _ _ Hx).
    rewrite insert_app_r_alt by (rewrite length_take; lia).
    rewrite length_take, Nat.min_l, Nat.sub_diag by lia.
    replace (240 - s)%nat with (S (240 - S s)) by lia.
    cbn [replicate]. unfold insert at 1. cbn [list_insert].
    replace (take s curField ++ x :: replicate (240 - S s) 0)
      with (take (S s) curField ++ replicate (240 - S s) 0)
      by (rewrite (take_S_r _ _ _ Hx), <- app_assoc; reflexivity).
    rewrite IH; [| lia | intros j Hj; apply Hrun; lia].
    by replace (S s + n)%nat with (s + S n)%nat by lia.
Qed.

Lemma run_value_split (d c : Z) :
  1 <= c <= 240 -> 0 <= run_value d c ->
  run_value d c / 240 = d /\ Z.rem (run_value d c) 240 + 1 = c.
Proof.
  intros Hc Hv. rewrite Z.rem_mod_nonneg by lia.
  unfold run_value in *. change FIELD_NUM_CELLS with 240 in *.
  replace (d * 240 + c - 1) with ((c - 1) + d * 240) by lia.
  rewrite Z.div_add, Z.mod_add, Z.div_small, Z.mod_small by lia. lia.
Qed.

Lemma field_loop_covers (curField prevField : list Z) :
  length curField = 240%nat ->
  forall (s : nat) (rs : list (Z * Z)),
    covers curField prevField s rs ->
    Forall (fun r => 0 <= run_value r.1 r.2 < 4096) rs ->
    forall (fuel : nat) (pre post : list Z),
      (length rs <= fuel)%nat ->
      field_loop fuel (pre ++ flat_map run_digits rs ++ post) prevField
        (take s curField ++ replicate (240 - s) 0) s (length pre)
      = Normal (curField, (length pre + 2 * length rs)%nat).
Proof.
  intros Hlen s rs Hcov.
  induction Hcov as [|s d c rs Hc Hrun Hcov IH]; intros Hfit fuel pre post Hfuel.
  - assert (E : field_loop fuel (pre ++ flat_map run_digits [] ++ post) prevField
                  (take 240 curField ++ replicate (240 - 240) 0) 240 (length pre)
                = Normal (take 240 curField ++ replicate (240 - 240) 0, length pre))
      by (destruct fuel; reflexivity).
    rewrite E. rewrite take_ge by lia. cbn [replicate Nat.sub length]. 
    rewrite app_nil_r. do 2 f_equal. lia.
  - pose proof (covers_bound _ _ _ _ Hcov) as Hb.
    apply Forall_cons in Hfit as [Hv Hfit]. cbn [fst snd] in Hv.
    destruct fuel as [|fuel]; [cbn [length] in Hfuel; lia|].
    cbn [flat_map]. change (run_digits (d, c)) with (digits 2 (run_value d c)).
    rewrite <- (app_assoc (digits 2 (run_value d c))).
    cbn [field_loop]. change FIELD_NUM_CELLS with 240.
    destruct (Z.ltb_spec (Z.of_nat s) 240) as [_|?]; [|lia].
    rewrite poll_digits by (change (64 ^ Z.of_nat 2) with 4096; lia).
    bind_step.
    destruct (run_value_split d c ltac:(lia) ltac:(lia)) as [-> ->].
    rewrite (fill_run_cells curField prevField d Hlen (Z.to_nat c) s ltac:(lia) Hrun).
    specialize (IH Hfit fuel (pre ++ digits 2 (run_value d c)) post
                  ltac:(cbn [length] in Hfuel; lia)).
    rewrite <- app_assoc, length_app, digits_length in IH.
    rewrite IH. cbn [length]. do 2 f_equal. lia.
Qed.

(** ** The packed descriptor *)

Lemma unpack_step (a b m : Z) :
  0 <= a < m -> 0 <= b -> Z.rem (a + b * m) m = a /\ (a + b * m) / m = b.
Proof.
  intros Ha Hb. rewrite Z.rem_mod_nonneg by nia.
  rewrite Z.mod_add, Z.div_add, Z.mod_small, Z.div_small by lia. lia.
Qed.

Lemma unpack_bit (x : bool) (b : Z) :
  0 <= b ->
  odd_js ((if x then 1 else 0) + b * 2) = x /\ ((if x then 1 else 0) + b * 2) / 2 = b.
Proof.
  intros Hb. unfold odd_js.
  destruct (unpack_step (if x then 1 else 0) b 2) as [-> ->];
    [destruct x; lia | lia |]. by destruct x.
Qed.

Lemma pack_descriptor_range (page : FumenPage) (hasComment : bool) :
  0 <= type (piece page) < 9 -> 0 <= rotation (piece page) < 4 ->
  0 <= location (piece page) < 240 ->
  0 <= pack_descriptor page hasComment < 262144.
Proof.
  intros Ht Hr Hl. unfold pack_descriptor. change FIELD_NUM_CELLS with 240.
  destruct (lock (flags page)), hasComment, (color (flags page)),
    (mirror (flags page)), (raise (flags page)); lia.
Qed.

Lemma unpack_pack_descriptor (page : FumenPage) (hasComment : bool) :
  0 <= type (piece page) < 8 -> 0 <= rotation (piece page) < 4 ->
  0 <= location (piece page) < 240 ->
  unpack_descriptor (pack_descriptor page hasComment)
  = mkDescriptor (piece page) (raise (flags page)) (mirror (flags page))
      (color (flags page)) hasComment (lock (flags page)).
Proof.
  destruct page as [fld [t r l] [ra mi co lo cm]]. cbn [piece flags type rotation location
    raise mirror color lock]. intros Ht Hr Hl.
  unfold unpack_descriptor, pack_descriptor.
  cbn [piece flags type rotation location raise mirror color lock].
  change FIELD_NUM_CELLS with 240.
  set (v5 := (if lo then 0 else 1) + 0 * 2).
  set (v4 := (if hasComment then 1 else 0) + v5 * 2).
  set (v3 := (if co then 1 else 0) + v4 * 2).
  set (v2 := (if mi then 1 else 0) + v3 * 2).
  set (v1 := (if ra then 1 else 0) + v2 * 2).
  assert (0 <= v5) by (subst v5; destruct lo; lia).
  assert (0 <= v4) by (subst v4; destruct hasComment; lia).
  assert (0 <= v3) by (subst v3; destruct co; lia).
  assert (0 <= v2) by (subst v2; destruct mi; lia).
  assert (0 <= v1) by (subst v1; destruct ra; lia).
  destruct (unpack_step t (r + (l + v1 * 240) * 4) 8) as [-> ->]; [lia | lia |].
  destruct (unpack_step r (l + v1 * 240) 4) as [-> ->]; [lia | lia |].
  destruct (unpack_step l v1 240) as [-> ->]; [lia | lia |].
  subst v1. destruct (unpack_bit ra v2) as [-> ->]; [lia|].
  subst v2. destruct (unpack_bit mi v3) as [-> ->]; [lia|].
  subst v3. destruct (unpack_bit co v4) as [-> ->]; [lia|].
  subst v4. destruct (unpack_bit hasComment v5) as [-> ->]; [lia|].
  subst v5. by destruct lo.
Qed.

(** ** The comment block *)

Lemma chunk_value_sum (esc : jsstring) (i : nat) :
  chunk_value esc i
  = (padded esc i 0 - 32) + 96 * ((padded esc i 1 - 32)
      + 96 * ((padded esc i 2 - 32) + 96 * (padded esc i 3 - 32))).
Proof. unfold chunk_value. cbn [chunk_value_loop]. fold (padded esc i 0).
  fold (padded esc i 1). fold (padded esc i 2). fold (padded esc i 3). lia.
Qed.

Lemma padded_printable (esc : jsstring) (i j : nat) :
  Forall (fun c => printable c = true) esc -> 32 <= padded esc i j < 128.
Proof.
  intros H. unfold padded. destruct (Nat.ltb_spec (i + j) (length esc)) as [Hlt|_]; [|lia].
  rewrite Forall_forall in H.
  specialize (H (nth (i + j) esc 0)).
  unfold printable in H.
  assert (Hin : nth (i + j) esc 0 ∈ esc) by (apply list_elem_of_In, nth_In; lia).
  apply H in Hin. lia.
Qed.

Lemma chunk_value_range (esc : jsstring) (i : nat) :
  Forall (fun c => printable c = true) esc ->
  0 <= chunk_value esc i < 64 ^ Z.of_nat 5.
Proof.
  intros H. rewrite chunk_value_sum.
  pose proof (padded_printable esc i 0 H). pose proof (padded_printable esc i 1 H).
  pose proof (padded_printable esc i 2 H). pose proof (padded_printable esc i 3 H).
  change (64 ^ Z.of_nat 5) with 1073741824. lia.
Qed.

Lemma chunk_chars_value (esc : jsstring) (i : nat) (escaped : jsstring) :
  Forall (fun c => printable c = true) esc ->
  chunk_chars 4 (chunk_value esc i) escaped = escaped ++ padded_from 1 esc i.
Proof.
  intros H. rewrite chunk_value_sum.
  pose proof (padded_printable esc i 0 H). pose proof (padded_printable esc i 1 H).
  pose proof (padded_printable esc i 2 H). pose proof (padded_printable esc i 3 H).
  set (a0 := padded esc i 0) in *. set (a1 := padded esc i 1) in *.
  set (a2 := padded esc i 2) in *. set (a3 := padded esc i 3) in *.
  cbn [chunk_chars padded_from]. fold a0 a1 a2 a3.
  replace (a0 - 32 + 96 * (a1 - 32 + 96 * (a2 - 32 + 96 * (a3 - 32))))
    with ((a0 - 32) + ((a1 - 32) + ((a2 - 32) + ((a3 - 32) + 0 * 96) * 96) * 96) * 96) by lia.
  destruct (unpack_step (a0 - 32) ((a1 - 32) + ((a2 - 32) + ((a3 - 32) + 0 * 96) * 96) * 96) 96)
    as [-> ->]; [lia | lia |].
  destruct (unpack_step (a1 - 32) ((a2 - 32) + ((a3 - 32) + 0 * 96) * 96) 96)
    as [-> ->]; [lia | lia |].
  destruct (unpack_step (a2 - 32) ((a3 - 32) + 0 * 96) 96) as [-> ->]; [lia | lia |].
  destruct (unpack_step (a3 - 32) 0 96) as [-> _]; [lia | lia |].
  rewrite <- !app_assoc. cbn [app].
  by replace (a0 - 32 + 32) with a0 by lia; replace (a1 - 32 + 32) with a1 by lia;
    replace (a2 - 32 + 32) with a2 by lia; replace (a3 - 32 + 32) with a3 by lia.
Qed.

Lemma encode_chunks_loop_digits (esc : jsstring) (n i : nat) (result : jsstring) :
  Forall (fun c => printable c = true) esc ->
  encode_chunks_loop n esc i result
  = result ++ map table_char (chunks_digits n esc i).
Proof.
  intros H. revert i result.
  induction n as [|n IH]; intros i result; cbn [encode_chunks_loop chunks_digits map].
  - by rewrite app_nil_r.
  - fold (chunk_value esc i).
    rewrite IH, unpoll_digits by (apply chunk_value_range; assumption).
    by rewrite map_app, <- app_assoc.
Qed.

Lemma chunks_digits_length (n : nat) (esc : jsstring) (i : nat) :
  length (chunks_digits n esc i) = (5 * n)%nat.
Proof.
  revert i. induction n as [|n IH]; intros i; cbn [chunks_digits]; [reflexivity|].
  rewrite length_app, digits_length, IH. lia.
Qed.

Lemma chunk_loop_digits (esc : jsstring) (n : nat) :
  Forall (fun c => printable c = true) esc ->
  forall (i : nat) (pre post : list Z) (escaped : jsstring),
    chunk_loop n (pre ++ chunks_digits n esc i ++ post) escaped (length pre)
    = Normal (escaped ++ padded_from n esc i, (length pre + 5 * n)%nat).
Proof.
  intros H. induction n as [|n IH]; intros i pre post escaped;
    cbn [chunks_digits padded_from].
  - cbn [chunk_loop]. rewrite app_nil_r. do 2 f_equal. lia.
  - rewrite <- (app_assoc (digits 5 (chunk_value esc i))).
    cbn [chunk_loop]. rewrite poll_digits by (apply chunk_value_range; assumption).
    bind_step. rewrite chunk_chars_value by assumption.
    specialize (IH (i + 4)%nat (pre ++ digits 5 (chunk_value esc i)) post
                  (escaped ++ padded_from 1 esc i)).
    rewrite <- app_assoc, length_app, digits_length in IH.
    rewrite IH. cbn [padded_from]. rewrite app_nil_r, <- app_assoc.
    do 2 f_equal. lia.
Qed.

Lemma padded_from_seq (esc : jsstring) (n i : nat) :
  padded_from n esc i = map (padded esc 0) (seq i (4 * n)).
Proof.
  revert i. induction n as [|n IH]; intros i; [reflexivity|].
  replace (4 * S n)%nat with (S (S (S (S (4 * n))))) by lia.
  cbn [padded_from seq map app]. rewrite IH.
  unfold padded. cbn [Nat.add].
  replace (i + 0)%nat with i by lia. replace (i + 1)%nat with (S i) by lia.
  replace (i + 2)%nat with (S (S i)) by lia. replace (i + 3)%nat with (S (S (S i))) by lia.
  replace (i + 4)%nat with (S (S (S (S i)))) by lia. reflexivity.
Qed.

Lemma take_padded_from (esc : jsstring) (n : nat) :
  (length esc <= 4 * n)%nat ->
  take (length esc) (padded_from n esc 0) = esc.
Proof.
  intros Hn. rewrite padded_from_seq.
  apply list_eq. intros j.
  destruct (decide (j < length esc)%nat) as [Hj|Hj].
  - rewrite lookup_take_lt by assumption.
    rewrite list_lookup_fmap, lookup_seq_lt by lia. cbn [fmap option_fmap option_map].
    unfold padded. cbn [Nat.add].
    destruct (Nat.ltb_spec j (length esc)) as [_|?]; [|lia].
    destruct (lookup_lt_is_Some_2 esc j Hj) as [x Hx].
    by rewrite Hx, (nth_lookup_Some _ _ _ _ Hx).
  - rewrite lookup_take_ge by lia. symmetry. apply lookup_ge_None. lia.
Qed.

Lemma nat_chunks (len : nat) :
  Z.to_nat ((Z.of_nat len + 3) / 4) = ((len + 3) / 4)%nat.
Proof.
  replace (Z.of_nat len + 3) with (Z.of_nat (len + 3)) by lia.
  change 4 with (Z.of_nat 4). rewrite <- Nat2Z.inj_div. apply Nat2Z.id.
Qed.

Lemma printable_ok_bytes :
  forallb (fun c => forallb printable (percent_char [c])) (map Z.of_nat (seq 0 256)) = true.
Proof. vm_compute. reflexivity. Qed.

Lemma percentEncode_printable (s : jsstring) :
  Forall (fun c => 0 <= c <= 255) s ->
  Forall (fun c => printable c = true) (percentEncode s).
Proof.
  intros Hs. rewrite percentEncode_bytes by assumption.
  induction Hs as [|c s Hc _ IH]; cbn [map flat_map]; [constructor|].
  apply Forall_app. split; [|assumption].
  pose proof printable_ok_bytes as H. rewrite forallb_forall in H.
  specialize (H c). rewrite forallb_forall in H.
  apply Forall_forall. intros x Hx. apply H; [|by apply list_elem_of_In].
  apply in_map_iff. exists (Z.to_nat c). split; [lia|]. apply in_seq. lia.
Qed.

Lemma encode_comment_digits (result comment_ : jsstring) :
  Forall (fun c => 0 <= c <= 255) comment_ ->
  encode_comment result comment_
  = result ++ map table_char (comment_digits comment_).
Proof.
  intros Hc. unfold encode_comment, comment_digits.
  rewrite encode_chunks_loop_digits by (by apply percentEncode_printable).
  rewrite unpoll_digits by lia. by rewrite map_app, <- app_assoc.
Qed.

Lemma parse_comment_digits (comment_ : jsstring) (pre post : list Z) :
  Forall (fun c => 0 <= c <= 255) comment_ ->
  (length (percentEncode comment_) <= 4095)%nat ->
  parse_comment (pre ++ comment_digits comment_ ++ post) (length pre)
  = Normal (comment_, (length pre + length (comment_digits comment_))%nat).
Proof.
  intros Hc Hlen. pose proof (percentEncode_printable comment_ Hc) as Hp.
  unfold parse_comment, comment_digits.
  set (esc := percentEncode comment_) in *.
  rewrite <- (app_assoc (digits 2 (Z.of_nat (length esc)))).
  rewrite poll_digits by (change (64 ^ Z.of_nat 2) with 4096; lia).
  bind_step. rewrite nat_chunks, Nat2Z.id.
  pose proof (chunk_loop_digits esc ((length esc + 3) / 4) Hp 0
                (pre ++ digits 2 (Z.of_nat (length esc))) post []) as H.
  rewrite <- app_assoc, length_app, digits_length in H.
  rewrite H. bind_step. cbn [app].
  rewrite take_padded_from.
  - subst esc. rewrite percentDecode_encoded by assumption.
    rewrite length_app, digits_length, chunks_digits_length. do 2 f_equal. lia.
  - pose proof (Nat.div_mod_eq (length esc + 3) 4).
    pose proof (Nat.mod_upper_bound (length esc + 3) 4). lia.
Qed.

(** ** One page *)

Lemma covers_counts (curField prevField : list Z) (s : nat) (rs : list (Z * Z)) :
  covers curField prevField s rs -> Forall (fun r => 1 <= r.2) rs.
Proof. induction 1; constructor; assumption. Qed.

Lemma runs_fit_values (curField prevField : list Z) :
  Forall (fun r => 0 <= r.1 <= 17 /\ run_value r.1 r.2 < 4096)
    (field_runs curField prevField) ->
  Forall (fun r => 0 <= run_value r.1 r.2 < 4096) (field_runs curField prevField).
Proof.
  intros H. pose proof (covers_counts _ _ _ _ (field_runs_covers curField prevField)) as Hc.
  rewrite Forall_forall in H, Hc. apply Forall_forall. intros r Hr.
  specialize (H r Hr). specialize (Hc r Hr). cbn beta in *.
  unfold run_value in *. change FIELD_NUM_CELLS with 240 in *. lia.
Qed.

Lemma run_string_digits (rs : list (Z * Z)) :
  Forall (fun r => 0 <= run_value r.1 r.2 < 4096) rs ->
  flat_map run_string rs = map table_char (flat_map run_digits rs).
Proof.
  induction 1 as [|r rs Hr _ IH]; cbn [flat_map]; [reflexivity|].
  rewrite map_app, IH. unfold run_string, run_digits.
  by rewrite unpoll_digits by lia.
Qed.

Lemma run_digits_length (rs : list (Z * Z)) :
  length (flat_map run_digits rs) = (2 * length rs)%nat.
Proof.
  induction rs as [|r rs IH]; cbn [flat_map length]; [reflexivity|].
  rewrite length_app, IH. unfold run_digits. rewrite digits_length. lia.
Qed.

Lemma parse_field_runs (prevPage page : FumenPage) (pre post : list Z) :
  length (field page) = 240%nat ->
  Forall (fun r => 0 <= run_value r.1 r.2 < 4096)
    (field_runs (field page) (field prevPage)) ->
  parse_field (pre ++ flat_map run_digits (field_runs (field page) (field prevPage)) ++ post)
    (field prevPage) (length pre)
  = Normal (field page,
            (length pre
             + length (flat_map run_digits (field_runs (field page) (field prevPage))))%nat).
Proof.
  intros Hlen Hfit. unfold parse_field.
  pose proof (field_runs_covers (field page) (field prevPage)) as Hcov.
  pose proof (field_loop_covers (field page) (field prevPage) Hlen 0 _ Hcov Hfit) as H.
  cbn [take Nat.sub app] in H.
  rewrite run_digits_length.
  apply H.
  (* one run per cell at most *)
  clear H Hfit.
  assert (G : forall s rs, covers (field page) (field prevPage) s rs ->
                           (s + length rs <= 240)%nat).
  { induction 1 as [|s d c rs Hc _ _ IH]; cbn [length]; lia. }
  specialize (G _ _ Hcov). change (Z.to_nat FIELD_NUM_CELLS) with 240%nat. lia.
Qed.

(** What [parse_page] does after a well-formed field and any three-digit
    descriptor value [v]. *)
Lemma parse_page_after_field (prevPage page : FumenPage) (v : Z) (pre post : list Z) :
  length (field page) = 240%nat ->
  Forall (fun r => 0 <= run_value r.1 r.2 < 4096)
    (field_runs (field page) (field prevPage)) ->
  0 <= v < 262144 ->
  let fieldDigits := flat_map run_digits (field_runs (field page) (field prevPage)) in
  let data := pre ++ fieldDigits ++ digits 3 v ++ post in
  let pos2 := (length pre + length fieldDigits + 3)%nat in
  let d := unpack_descriptor v in
  parse_page data prevPage (length pre)
  = '(comment_, pos3) ← (if d_hasComment d then parse_comment data pos2
                         else Normal (comment newFlags, pos2));
    Normal (mkPage (field page) (d_piece d)
              (mkFlags (d_raise d) (d_mirror d) (d_color d) (d_lock d) comment_),
            pos3).
Proof.
  intros Hlen Hfit Hv fieldDigits data pos2 d. unfold parse_page.
  subst data pos2 d fieldDigits.
  rewrite parse_field_runs by assumption. bind_step.
  unfold parse_descriptor.
  pose proof (poll_digits 3 v
                (pre ++ flat_map run_digits (field_runs (field page) (field prevPage))) post
                ltac:(change (64 ^ Z.of_nat 3) with 262144; lia)) as H.
  rewrite <- app_assoc, length_app in H. rewrite H. bind_step. reflexivity.
Qed.

Lemma encode_page_digits (result : jsstring) (prevPage page : FumenPage) :
  Forall (fun r => 0 <= run_value r.1 r.2 < 4096)
    (field_runs (field page) (field prevPage)) ->
  0 <= pack_descriptor page (has_comment page) ->
  Forall (fun c => 0 <= c <= 255) (comment (flags page)) ->
  encode_page result prevPage page
  = result ++ map table_char (page_digits prevPage page).
Proof.
  intros Hfit Hv Hc. unfold encode_page, page_digits. fold (has_comment page).
  rewrite encode_field_runs, run_string_digits, unpoll_digits by assumption.
  rewrite !map_app, <- !app_assoc.
  destruct (has_comment page).
  - rewrite encode_comment_digits by assumption. by rewrite <- !app_assoc.
  - reflexivity.
Qed.

Lemma page_fits_descriptor (prevPage page : FumenPage) (hasComment : bool) :
  page_fits prevPage page -> 0 <= type (piece page) < 9 ->
  0 <= pack_descriptor page hasComment < 262144.
Proof.
  intros [? ? ? ? ? ?] Ht. apply pack_descriptor_range; lia.
Qed.

Lemma parse_page_digits (prevPage page : FumenPage) (pre post : list Z) :
  page_ok prevPage page ->
  parse_page (pre ++ page_digits prevPage page ++ post) prevPage (length pre)
  = Normal (page, (length pre + length (page_digits prevPage page))%nat).
Proof.
  intros [Hfits Ht].
  pose proof (page_fits_descriptor _ _ (has_comment page) Hfits ltac:(lia)) as Hv.
  destruct Hfits as [Hlen Hruns Hr Hl Hcc Hcl].
  apply runs_fit_values in Hruns.
  unfold page_digits.
  set (F := flat_map run_digits (field_runs (field page) (field prevPage))).
  set (v := pack_descriptor page (has_comment page)) in *.
  rewrite <- !app_assoc.
  rewrite (parse_page_after_field prevPage page v pre _ Hlen Hruns Hv).
  fold F. subst v. rewrite unpack_pack_descriptor by assumption.
  cbn [d_hasComment d_piece d_raise d_mirror d_color d_lock].
  rewrite !length_app, digits_length.
  destruct page as [fld pc [ra mi co lo cm]].
  cbn [field piece flags raise mirror color lock comment] in *.
  unfold has_comment. cbn [flags comment].
  destruct (Nat.ltb_spec 0 (length cm)) as [Hpos|Hzero].
  - pose proof (parse_comment_digits cm (pre ++ F ++ digits 3
                  (pack_descriptor (mkPage fld pc (mkFlags ra mi co lo cm)) true)) post
                  Hcc Hcl) as H.
    rewrite <- !app_assoc, !length_app, digits_length in H.
    replace (length pre + length F + 3)%nat with (length pre + (length F + 3))%nat by lia.
    rewrite H. bind_step. do 2 f_equal. lia.
  - bind_step. destruct cm; [|cbn [length] in Hzero; lia].
    cbn [newFlags comment length]. do 2 f_equal. lia.
Qed.

Lemma chunks_digits_range (n : nat) (esc : jsstring) (i : nat) :
  Forall (fun d => 0 <= d < 64) (chunks_digits n esc i).
Proof.
  revert i. induction n as [|n IH]; intros i; cbn [chunks_digits]; [constructor|].
  apply Forall_app_2; [apply digits_range | apply IH].
Qed.

Lemma page_digits_range (prevPage page : FumenPage) :
  Forall (fun d => 0 <= d < 64) (page_digits prevPage page).
Proof.
  unfold page_digits. repeat apply Forall_app_2.
  - induction (field_runs _ _) as [|r rs IH]; cbn [flat_map]; [constructor|].
    apply Forall_app_2; [apply digits_range | assumption].
  - apply digits_range.
  - destruct (has_comment page); [|constructor].
    unfold comment_digits. apply Forall_app_2; [apply digits_range|].
    apply chunks_digits_range.
Qed.

Lemma pages_digits_range (prevPage : FumenPage) (pages_ : list FumenPage) :
  Forall (fun d => 0 <= d < 64) (pages_digits prevPage pages_).
Proof.
  revert prevPage. induction pages_ as [|p ps IH]; intros prev; cbn [pages_digits];
    [constructor|].
  apply Forall_app_2; [apply page_digits_range | apply IH].
Qed.

Lemma page_digits_nonempty (prevPage page : FumenPage) :
  (3 <= length (page_digits prevPage page))%nat.
Proof. unfold page_digits. rewrite !length_app, digits_length. lia. Qed.

Lemma pages_digits_length (prevPage : FumenPage) (pages_ : list FumenPage) :
  (length pages_ <= length (pages_digits prevPage pages_))%nat.
Proof.
  revert prevPage. induction pages_ as [|p ps IH]; intros prev; cbn [pages_digits length];
    [lia|].
  rewrite length_app. pose proof (page_digits_nonempty prev p). specialize (IH p). lia.
Qed.

(** ** The page list *)

Lemma encode_loop_digits (pages_ : list FumenPage) :
  forall (prevPage : FumenPage) (result : jsstring),
    pages_ok prevPage pages_ ->
    encode_loop pages_ prevPage result
    = result ++ map table_char (pages_digits prevPage pages_).
Proof.
  induction pages_ as [|p ps IH]; intros prev result Hok; cbn [encode_loop pages_digits map].
  - by rewrite app_nil_r.
  - destruct Hok as [Hp Hps].
    rewrite IH by assumption.
    rewrite encode_page_digits.
    + by rewrite map_app, <- app_assoc.
    + apply runs_fit_values, Hp.
    + apply (page_fits_descriptor prev p _ (proj1 Hp)). destruct Hp as [_ Ht]. lia.
    + apply Hp.
Qed.

Lemma page_loop_digits (pages_ : list FumenPage) :
  forall (prevPage : FumenPage) (fuel : nat) (pre : list Z) (fumen : list FumenPage),
    pages_ok prevPage pages_ ->
    (length pages_ < fuel)%nat ->
    page_loop fuel (pre ++ pages_digits prevPage pages_) prevPage fumen (length pre)
    = Normal (fumen ++ pages_).
Proof.
  induction pages_ as [|p ps IH]; intros prev fuel pre fumen Hok Hfuel;
    (destruct fuel as [|fuel]; [lia|]); cbn [pages_digits page_loop].
  - rewrite !app_nil_r. destruct (Nat.ltb_spec (length pre) (length pre)); [lia|reflexivity].
  - destruct Hok as [Hp Hps].
    destruct (Nat.ltb_spec (length pre)
                (length (pre ++ page_digits prev p ++ pages_digits p ps))) as [_|Hge].
    2:{ rewrite !length_app in Hge. pose proof (page_digits_nonempty prev p). lia. }
    rewrite parse_page_digits by assumption. bind_step.
    specialize (IH p fuel (pre ++ page_digits prev p) (fumen ++ [p]) Hps
                  ltac:(cbn [length] in Hfuel; lia)).
    rewrite <- app_assoc, length_app in IH. rewrite IH.
    by rewrite <- app_assoc.
Qed.

Lemma decode_encode_pages (pages_ : list FumenPage) :
  pages_ok newFumenPage pages_ ->
  decode (encode (mkFumen pages_)) = Normal (Some (mkFumen pages_)).
Proof.
  intros Hok. unfold encode. cbn [pages].
  rewrite encode_loop_digits by assumption.
  rewrite decode_tagged.
  pose proof (numData_of_table_chars (pages_digits newFumenPage pages_) []
                (pages_digits_range _ _)) as H.
  rewrite app_nil_r in H. cbn in H. rewrite app_nil_r in H. rewrite H.
  pose proof (page_loop_digits pages_ newFumenPage
                (S (length (pages_digits newFumenPage pages_))) [] [] Hok) as L.
  cbn [app length] in L. rewrite L; [reflexivity|].
  pose proof (pages_digits_length newFumenPage pages_). lia.
Qed.

(** ** Round trip *)

(** C1, as the claim states it, fails twice.  A page whose 240 cells are all
    9 over the empty first field is one run of diff 17, within the stated
    ranges; its run value 4319 does not fit two digits and [decode] returns
    [null] on the encoded text.  A page whose comment is the one character of
    code 256 is escaped as [%100] (length 4) and decodes with the
    two-character comment of codes 16 and 48. *)
Lemma decode_encode_fails_in_stated_ranges :
  (page_in_stated_ranges newFumenPage page_all_nine
   /\ decode (encode (mkFumen [page_all_nine])) = Normal None)
  /\ (page_in_stated_ranges newFumenPage page_wide_comment
      /\ decode (encode (mkFumen [page_wide_comment]))
         = Normal (Some (mkFumen
             [mkPage empty_field newPiece (mkFlags false false true true [16; 48])]))).
Proof.
  split; (split; [|vm_compute; reflexivity]).
  - constructor; [reflexivity | by_computation | cbn; lia | cbn; lia | cbn; lia
                 | vm_compute; lia].
  - constructor; [reflexivity | by_computation | cbn; lia | cbn; lia | cbn; lia
                 | vm_compute; lia].
Qed.

(** C1, amended: for every page list in which each page, diffed against the
    page before it (the empty page for the first), has 240 cells, runs with
    a diff in [0,17] whose run value is below 4096 (always so for diffs up to
    16), a piece type in [0,8), a rotation in [0,4), a location in [0,240),
    and a comment of characters up to code 255 whose escaped form has at most
    4095 characters, [decode (encode pages)] returns exactly [pages]. *)
Theorem decode_encode_roundtrip (pages_ : list FumenPage) :
  pages_ok newFumenPage pages_ ->
  decode (encode (mkFumen pages_)) = Normal (Some (mkFumen pages_)).
Proof. exact (decode_encode_pages pages_). Qed.

Lemma decode_encode_roundtrip_witness :
  pages_ok newFumenPage [page_T; page_commented; page_T]
  /\ decode (encode (mkFumen [page_T; page_commented; page_T]))
     = Normal (Some (mkFumen [page_T; page_commented; page_T])).
Proof.
  assert (W : pages_ok newFumenPage [page_T; page_commented; page_T]).
  { cbn [pages_ok]. repeat (split; [page_ok_computed|]). exact I. }
  split; [exact W|].
  exact (decode_encode_roundtrip _ W).
Defined.

(** ** Run boundaries *)

Lemma runs_loop_step (n : nat) (curField prevField : list Z) (i : nat)
    (lastDiff diffCount : Z) :
  runs_loop (S n) curField prevField i lastDiff diffCount
  = if (0 <? i)%nat && negb (diff_at curField prevField i =? lastDiff)
    then (lastDiff, diffCount)
           :: runs_loop n curField prevField (S i) (diff_at curField prevField i) 1
    else runs_loop n curField prevField (S i) (diff_at curField prevField i) (diffCount + 1).
Proof. reflexivity. Qed.

Lemma runs_loop_constant (curField prevField : list Z) (lastDiff : Z) (n m : nat) :
  forall (i : nat) (diffCount : Z),
    (forall j, (i <= j < i + n)%nat -> diff_at curField prevField j = lastDiff) ->
    runs_loop (n + m) curField prevField i lastDiff diffCount
    = runs_loop m curField prevField (i + n) lastDiff (diffCount + Z.of_nat n).
Proof.
  induction n as [|n IH]; intros i diffCount Hrun.
  - cbn [Nat.add]. f_equal; lia.
  - change (S n + m)%nat with (S (n + m)). rewrite runs_loop_step.
    rewrite (Hrun i ltac:(lia)), Z.eqb_refl, andb_false_r.
    rewrite IH by (intros j Hj; apply Hrun; lia).
    f_equal; lia.
Qed.

Lemma diff_at_changed (prevField : list Z) (k : nat) :
  prevField !! k = Some 0 -> diff_at (<[k := 1]> prevField) prevField k = 9.
Proof.
  intros Hk. unfold diff_at.
  pose proof (lookup_lt_Some _ _ _ Hk) as Hlt.
  rewrite (nth_lookup_Some _ _ _ _ Hk).
  rewrite (nth_lookup_Some (<[k := 1]> prevField) k 0 1)
    by (by apply list_lookup_insert_eq).
  reflexivity.
Qed.

Lemma diff_at_unchanged (prevField : list Z) (k j : nat) :
  j <> k -> diff_at (<[k := 1]> prevField) prevField j = 8.
Proof.
  intros Hne. unfold diff_at.
  rewrite !nth_lookup, list_lookup_insert_ne by congruence. lia.
Qed.

Lemma field_runs_single_change (prevField : list Z) (k : nat) :
  (k < 240)%nat -> prevField !! k = Some 0 ->
  field_runs (<[k := 1]> prevField) prevField = single_change_runs k.
Proof.
  intros Hk Hcell. unfold field_runs, single_change_runs.
  set (cur := <[k := 1]> prevField).
  change (Z.to_nat FIELD_NUM_CELLS) with (S 239). rewrite runs_loop_first.
  destruct (Nat.eqb_spec k 0) as [->|Hk0].
  - (* the first cell *)
    subst cur. rewrite diff_at_changed by assumption.
    change 239%nat with (S 238). rewrite runs_loop_step.
    rewrite diff_at_unchanged by lia. cbn [Nat.ltb Nat.leb andb Z.eqb negb app].
    change 238%nat with (238 + 0)%nat at 1.
    rewrite runs_loop_constant by (intros j Hj; apply diff_at_unchanged; lia).
    reflexivity.
  - subst cur. rewrite diff_at_unchanged by lia.
    replace 239%nat with ((k - 1) + S (239 - k))%nat at 1 by lia.
    rewrite runs_loop_constant by (intros j Hj; apply diff_at_unchanged; lia).
    rewrite runs_loop_step.
    replace (1 + (k - 1))%nat with k by lia.
    rewrite diff_at_changed by assumption.
    destruct (Nat.ltb_spec 0 k) as [_|?]; [|lia]. cbn [andb Z.eqb negb].
    replace (0 + 1 + Z.of_nat (k - 1)) with (Z.of_nat k) by lia.
    cbn [app]. f_equal.
    destruct (Nat.eqb_spec k 239) as [->|Hk239].
    + (* the last cell *) reflexivity.
    + replace (239 - k)%nat with (S (238 - k)) by lia. rewrite runs_loop_step.
      rewrite diff_at_unchanged by lia. cbn [Nat.ltb Nat.leb andb Z.eqb negb].
      f_equal.
      replace (238 - k)%nat with ((238 - k) + 0)%nat at 1 by lia.
      rewrite runs_loop_constant by (intros j Hj; apply diff_at_unchanged; lia).
      cbn [runs_loop]. do 2 f_equal. lia.
Qed.

(** C9, as the claim states it, fails when the changed cell is neither the
    first nor the last: with cell 5 changed, the unchanged cells are cut in
    two and [encode] writes three run entries, [Ee], [wh] and [ph]. *)
Lemma single_change_gives_three_runs :
  field page_T !! 5%nat = Some 0
  /\ field_runs (<[5%nat := 1]> (field page_T)) (field page_T)
     = [(8, 5); (9, 1); (8, 234)]
  /\ encode_field [] (<[5%nat := 1]> (field page_T)) (field page_T) = lit "Eewhph".
Proof. split; [reflexivity|]. split; vm_compute; reflexivity. Qed.

(** ** The piece type under the radix 8 *)

Lemma page_loop_extends (data : list Z) (fuel : nat) :
  forall (prevPage : FumenPage) (fumen : list FumenPage) (pos : nat) (r : list FumenPage),
    page_loop fuel data prevPage fumen pos = Normal r ->
    exists rest, r = fumen ++ rest.
Proof.
  induction fuel as [|fuel IH]; intros prev fumen pos r; cbn [page_loop];
    destruct (pos <? length data)%nat; try discriminate.
  - intros [= <-]. exists []. by rewrite app_nil_r.
  - destruct (parse_page data prev pos) as [[pg pos']| |]; bind_step; try discriminate.
    intros H. apply IH in H as [rest ->]. exists (pg :: rest). by rewrite <- app_assoc.
  - intros [= <-]. exists []. by rewrite app_nil_r.
Qed.

Lemma encode_single_page (page : FumenPage) :
  page_fits newFumenPage page -> 0 <= type (piece page) < 9 ->
  encode (mkFumen [page])
  = FUMEN_VERSION ++ map table_char (page_digits newFumenPage page).
Proof.
  intros Hfits Ht. unfold encode. cbn [pages encode_loop].
  apply encode_page_digits.
  - apply runs_fit_values, Hfits.
  - by apply (page_fits_descriptor newFumenPage page).
  - apply Hfits.
Qed.

Lemma type8_unpacks_to_0 (page : FumenPage) (hasComment : bool) :
  type (piece page) = 8 -> 0 <= rotation (piece page) -> 0 <= location (piece page) ->
  type (d_piece (unpack_descriptor (pack_descriptor page hasComment))) = 0.
Proof.
  intros Ht Hr Hl. unfold unpack_descriptor. cbn [d_piece type].
  unfold pack_descriptor. rewrite Ht. change FIELD_NUM_CELLS with 240.
  match goal with |- Z.rem (8 + ?X * 8) 8 = 0 =>
    assert (0 <= X)
      by (destruct (lock (flags page)), hasComment, (color (flags page)),
            (mirror (flags page)), (raise (flags page)); lia);
    replace (8 + X * 8) with ((X + 1) * 8) by lia;
    rewrite Z.rem_mod_nonneg by lia; apply Z.mod_mul; lia
  end.
Qed.

Lemma parse_first_page (prevPage page : FumenPage) :
  page_fits prevPage page -> 0 <= type (piece page) < 9 ->
  let d := unpack_descriptor (pack_descriptor page (has_comment page)) in
  let pos2 := (length (flat_map run_digits (field_runs (field page) (field prevPage)))
               + 3)%nat in
  parse_page (page_digits prevPage page) prevPage 0
  = '(comment_, pos3) ←
      (if d_hasComment d then parse_comment (page_digits prevPage page) pos2
       else Normal (comment newFlags, pos2));
    Normal (mkPage (field page) (d_piece d)
              (mkFlags (d_raise d) (d_mirror d) (d_color d) (d_lock d) comment_),
            pos3).
Proof.
  intros Hfits Ht.
  pose proof (parse_page_after_field prevPage page
           (pack_descriptor page (has_comment page)) []
           (if has_comment page then comment_digits (comment (flags page)) else [])
           (fit_field _ _ Hfits) (runs_fit_values _ _ (fit_runs _ _ Hfits))
           (page_fits_descriptor _ _ (has_comment page) Hfits Ht)) as P.
  cbv zeta in P. rewrite app_nil_l in P.
  change (length (@nil Z)) with 0%nat in P. rewrite Nat.add_0_l in P.
  exact P.
Qed.

Lemma type8_never_roundtrips (page : FumenPage) :
  page_fits newFumenPage page -> type (piece page) = 8 ->
  decode (encode (mkFumen [page])) <> Normal (Some (mkFumen [page])).
Proof.
  intros Hfits Ht.
  rewrite encode_single_page by (assumption || lia).
  rewrite decode_tagged.
  pose proof (numData_of_table_chars (page_digits newFumenPage page) []
                (page_digits_range _ _)) as H.
  rewrite app_nil_r in H. cbn in H. rewrite app_nil_r in H. rewrite H. clear H.
  cbn [page_loop].
  destruct (Nat.ltb_spec 0 (length (page_digits newFumenPage page))) as [_|Hge];
    [|pose proof (page_digits_nonempty newFumenPage page); lia].
  pose proof (type8_unpacks_to_0 page (has_comment page) Ht
                ltac:(destruct Hfits; lia) ltac:(destruct Hfits; lia)) as Ht0.
  rewrite (parse_first_page newFumenPage page Hfits ltac:(lia)). cbv zeta.
  set (d := unpack_descriptor (pack_descriptor page (has_comment page))) in *.
  destruct (if d_hasComment d then _ else _) as [[c pos3]| |]; bind_step;
    [|discriminate|discriminate].
  set (pg := mkPage _ _ _).
  destruct (page_loop _ _ pg ([] ++ [pg]) pos3) as [r| |] eqn:E; try discriminate.
  apply page_loop_extends in E as [rest ->]. cbn [app].
  intros [= Hpg _]. rewrite <- Hpg in Ht. subst pg. cbn [piece] in Ht. lia.
Qed.

Lemma type8_alias_facts (page : FumenPage) :
  page_fits newFumenPage page -> type (piece page) = 8 ->
  ~ carry_reaches_comment page ->
  page_ok newFumenPage (type8_alias page)
  /\ page_digits newFumenPage (type8_alias page) = page_digits newFumenPage page.
Proof.
  intros [Hlen Hruns Hr Hl Hcc Hcl] Ht Hcarry.
  destruct page as [fld [t r l] [ra mi co lo cm]].
  unfold carry_reaches_comment in Hcarry.
  cbn [field piece flags type rotation location raise mirror color lock comment] in *.
  subst t. unfold type8_alias.
  cbn [field piece flags type rotation location raise mirror color lock comment].
  destruct (Z.ltb_spec r 3); [|destruct (Z.ltb_spec l 239)].
  - split; [split; [constructor; cbn [field piece flags rotation location comment];
                     (assumption || lia)
                  | cbn [piece type]; lia]|].
    unfold page_digits, has_comment, pack_descriptor.
    cbn [field piece flags type rotation location raise mirror color lock comment].
    do 3 f_equal. lia.
  - split; [split; [constructor; cbn [field piece flags rotation location comment];
                     (assumption || lia)
                  | cbn [piece type]; lia]|].
    unfold page_digits, has_comment, pack_descriptor.
    cbn [field piece flags type rotation location raise mirror color lock comment].
    change FIELD_NUM_CELLS with 240. do 3 f_equal. lia.
  - split; [split; [constructor; cbn [field piece flags rotation location comment];
                     (assumption || lia)
                  | cbn [piece type]; lia]|].
    unfold page_digits, has_comment, pack_descriptor.
    cbn [field piece flags type rotation location raise mirror color lock comment].
    change FIELD_NUM_CELLS with 240. do 3 f_equal.
    assert (r = 3) by lia. assert (l = 239) by lia. subst r l.
    destruct ra, mi, co; cbn [negb xorb andb];
      first [lia | exfalso; apply Hcarry; auto].
Qed.

(** C6, as the claim states it, fails for one kind of page: with type 8,
    rotation 3, location 239 and raise, mirror and color set, the carry of
    the type sets the comment flag of a page without comment, the length
    field is missing and [decode] returns [null] instead of a page of type 0. *)
Lemma type8_carry_decodes_to_null :
  page_fits newFumenPage page_type8_carry
  /\ type (piece page_type8_carry) = 8
  /\ encode (mkFumen [page_type8_carry]) = lit "v115@vhAAP"
  /\ decode (encode (mkFumen [page_type8_carry])) = Normal None.
Proof.
  split; [page_fits_computed|]. split; [reflexivity|].
  split; vm_compute; reflexivity.
Qed.

(** C6, amended: for a page within the other range invariants, a piece type
    in 0..7 round-trips through [encode] then [decode] and the type 8 never
    does; the descriptor of a page of type 8 unpacks with type 0 (the 9th
    value aliases onto 0, its excess carried into the next fields), and the
    page decodes as a page of type 0, [type8_alias page], unless rotation is
    3, location is 239 and raise, mirror and color are all set, the one case
    in which the carry reaches the comment flag. *)
Theorem piece_type_radix_8 (page : FumenPage) :
  page_fits newFumenPage page ->
  (0 <= type (piece page) < 8 ->
     decode (encode (mkFumen [page])) = Normal (Some (mkFumen [page])))
  /\ (type (piece page) = 8 ->
        type (d_piece (unpack_descriptor (pack_descriptor page (has_comment page)))) = 0
        /\ decode (encode (mkFumen [page])) <> Normal (Some (mkFumen [page]))
        /\ (~ carry_reaches_comment page ->
              decode (encode (mkFumen [page])) = Normal (Some (mkFumen [type8_alias page]))
              /\ type (piece (type8_alias page)) = 0)).
Proof.
  intros Hfits. split.
  - intros Ht. apply decode_encode_pages. cbn [pages_ok].
    split; [split; assumption | exact I].
  - intros Ht. split; [|split].
    + apply type8_unpacks_to_0; [assumption | destruct Hfits; lia | destruct Hfits; lia].
    + by apply type8_never_roundtrips.
    + intros Hcarry.
      destruct (type8_alias_facts page Hfits Ht Hcarry) as [Hok Hd].
      split; [|destruct Hok as [_ Ht0]; unfold type8_alias in *;
               destruct (rotation (piece page) <? 3); [reflexivity|];
               destruct (location (piece page) <? 239); reflexivity].
      rewrite encode_single_page by (assumption || lia).
      rewrite <- Hd, <- encode_single_page by (apply Hok || (destruct Hok; lia)).
      apply decode_encode_pages. cbn [pages_ok]. auto.
Qed.

Lemma piece_type_radix_8_witness :
  page_fits newFumenPage page_type8
  /\ type (piece page_type8) = 8
  /\ ~ carry_reaches_comment page_type8
  /\ decode (encode (mkFumen [page_type8]))
     = Normal (Some (mkFumen
         [mkPage empty_field (mkPiece 0 2 7) (mkFlags true false true true (lit "hi"))])).
Proof.
  assert (W : page_fits newFumenPage page_type8) by page_fits_computed.
  assert (C : ~ carry_reaches_comment page_type8).
  { unfold carry_reaches_comment. cbn. lia. }
  split; [exact W|]. split; [reflexivity|]. split; [exact C|].
  destruct (piece_type_radix_8 page_type8 W) as [_ H].
  destruct (H eq_refl) as (_ & _ & H3).
  destruct (H3 C) as [H4 _]. exact H4.
Defined.

(** ** The length field of the comment block *)

Lemma from_digits_mod (n : nat) (value : Z) :
  0 <= value -> from_digits (digits n value) = value mod 64 ^ Z.of_nat n.
Proof.
  revert value. induction n as [|n IH]; intros v Hv; cbn [digits from_digits].
  - cbn. by rewrite Z.mod_1_r.
  - rewrite IH by (apply Z.div_pos; lia).
    rewrite Nat2Z.inj_succ, Z.pow_succ_r by lia.
    rewrite Z.rem_mul_r by lia. reflexivity.
Qed.

Lemma numData_of_unpoll (value : Z) (n : nat) :
  0 <= value -> numData_of (unpoll value n) = digits n value.
Proof.
  intros Hv. rewrite unpoll_digits by assumption.
  pose proof (numData_of_table_chars (digits n value) [] (digits_range n value)) as H.
  rewrite app_nil_r in H. rewrite H. cbn. apply app_nil_r.
Qed.

Lemma poll_unpoll_wraps (value : Z) (n : nat) (post : list Z) :
  0 <= value ->
  poll (numData_of (unpoll value n) ++ post) 0 n
  = Normal (value mod 64 ^ Z.of_nat n, n).
Proof.
  intros Hv. rewrite numData_of_unpoll by assumption. unfold poll.
  destruct (Nat.ltb_spec (length (digits n value ++ post)) (0 + n)) as [H|_].
  { rewrite length_app, digits_length in H. lia. }
  pose proof (poll_loop_from_digits (digits n value) [] post 0 1) as H.
  rewrite digits_length in H. cbn [app length] in H.
  rewrite H, from_digits_mod by assumption. do 2 f_equal. lia.
Qed.




(** ** Truncated streams *)

Lemma poll_truncated (data : list Z) (pos count : nat) :
  (length data < pos + count)%nat ->
  poll data pos count = Throw "Data stream ended unexpectedly during poll.".
Proof.
  intros H. destruct (poll_cases data pos count) as [[_ E] | [Hle _]]; [exact E | lia].
Qed.

Lemma field_reaches_resumes (data prevField : list Z) (pos0 : nat) :
  Forall (fun d => 0 <= d) data ->
  forall curField cellCount pos,
    field_reaches data prevField pos0 curField cellCount pos ->
    (cellCount <= 240)%nat
    /\ exists k, (k <= cellCount)%nat
         /\ forall fuel,
              field_loop (k + fuel) data prevField (field newFumenPage) 0 pos0
              = field_loop fuel data prevField curField cellCount pos.
Proof.
  intros Hd curField cellCount pos H.
  induction H as [|curField cellCount pos value pos' _ [Hle (k & Hk & IH)] Hcc Hpoll].
  - split; [lia|]. exists 0%nat. split; [lia|]. reflexivity.
  - change FIELD_NUM_CELLS with 240 in *.
    apply poll_normal_inv in Hpoll as Hinv. destruct Hinv as (Hv & _ & _).
    assert (0 <= value) by (subst value; apply poll_loop_nonneg; auto; lia).
    assert (0 <= Z.rem value 240) by (apply Z.rem_nonneg; lia).
    pose proof (fill_run_count (Z.to_nat (Z.rem value 240 + 1)) prevField
                  (value / 240) curField cellCount Hle) as Hcnt.
    split; [lia|].
    exists (S k). split; [lia|]. intros fuel.
    replace (S k + fuel)%nat with (k + S fuel)%nat by lia. rewrite IH.
    cbn [field_loop]. change FIELD_NUM_CELLS with 240.
    destruct (Z.ltb_spec (Z.of_nat cellCount) 240) as [_|?]; [|lia].
    rewrite Hpoll. bind_step.
    by destruct (fill_run _ prevField (value / 240) curField cellCount).
Qed.

Lemma parse_field_truncated (data prevField : list Z) (pos0 : nat)
    (curField : list Z) (cellCount pos : nat) :
  Forall (fun d => 0 <= d) data ->
  field_reaches data prevField pos0 curField cellCount pos ->
  Z.of_nat cellCount < FIELD_NUM_CELLS ->
  (length data < pos + 2)%nat ->
  exists msg, parse_field data prevField pos0 = Throw msg.
Proof.
  intros Hd Hreach Hcc Hlen. change FIELD_NUM_CELLS with 240 in Hcc.
  destruct (field_reaches_resumes data prevField pos0 Hd _ _ _ Hreach)
    as (_ & k & Hk & Hres).
  unfold parse_field. change (Z.to_nat FIELD_NUM_CELLS) with 240%nat.
  replace 240%nat with (k + S (239 - k))%nat by lia. rewrite Hres.
  cbn [field_loop]. change FIELD_NUM_CELLS with 240.
  destruct (Z.ltb_spec (Z.of_nat cellCount) 240) as [_|?]; [|lia].
  rewrite poll_truncated by assumption. bind_step. eauto.
Qed.

Lemma chunk_loop_truncated (data : list Z) (numChunks : nat) :
  forall (i : nat) (escapedComment : jsstring) (pos : nat),
    (i < numChunks)%nat -> (length data < pos + 5 * i + 5)%nat ->
    exists msg, chunk_loop numChunks data escapedComment pos = Throw msg.
Proof.
  induction numChunks as [|n IH]; intros i escaped pos Hi Hlen; [lia|].
  cbn [chunk_loop].
  destruct (poll_cases data pos 5) as [[_ ->] | [Hle ->]]; bind_step; [eauto|].
  destruct i as [|i]; [lia|].
  apply (IH i); lia.
Qed.

Lemma polls_truncated_page (data : list Z) (pos count : nat) :
  Forall (fun d => 0 <= d) data ->
  polls data pos count -> (length data < pos + count)%nat ->
  exists prevPage fumen pos0 msg,
    loop_reaches data prevPage fumen pos0 /\ (pos0 < length data)%nat
    /\ parse_page data prevPage pos0 = Throw msg.
Proof.
  intros Hd Hpolls Hlen.
  destruct Hpolls as [prev fumen pos0 cf cc pos Hreach Hpos0 Hfield Hcc
                     |prev fumen pos0 cf pos1 Hreach Hpos0 Hfield
                     |prev fumen pos0 cf pos1 d pos2 Hreach Hpos0 Hfield Hdesc Hhas
                     |prev fumen pos0 cf pos1 d pos2 len pos3 i Hreach Hpos0 Hfield Hdesc
                        Hhas Hpoll Hi Hle];
    exists prev, fumen, pos0; unfold parse_page.
  - destruct (parse_field_truncated data (field prev) pos0 cf cc pos Hd Hfield Hcc Hlen)
      as [msg ->]. bind_step. eauto.
  - rewrite Hfield. bind_step. unfold parse_descriptor.
    rewrite poll_truncated by assumption. bind_step. eauto.
  - rewrite Hfield. bind_step. rewrite Hdesc. bind_step. rewrite Hhas.
    unfold parse_comment. rewrite poll_truncated by assumption. bind_step. eauto.
  - rewrite Hfield. bind_step. rewrite Hdesc. bind_step. rewrite Hhas.
    unfold parse_comment. rewrite Hpoll. bind_step.
    destruct (chunk_loop_truncated data (Z.to_nat ((len + 3) / 4)) i [] pos3 Hi Hlen)
      as [msg ->]. bind_step. eauto.
Qed.

Lemma loop_reaches_resumes (data : list Z) :
  Forall (fun d => 0 <= d) data ->
  forall prevPage fumen pos,
    loop_reaches data prevPage fumen pos ->
    exists k, (k <= pos)%nat
      /\ forall fuel,
           page_loop (k + fuel) data newFumenPage [] 0
           = page_loop fuel data prevPage fumen pos.
Proof.
  intros Hd prev fumen pos H.
  induction H as [|prev fumen pos page pos' _ (k & Hk & IH) Hpos Hparse].
  - exists 0%nat. split; [lia|]. reflexivity.
  - destruct (parse_page_runs data prev pos Hd) as [[msg E] | (pg & p & E & Hp)];
      rewrite E in Hparse; [discriminate|]. injection Hparse as -> ->.
    exists (S k). split; [lia|]. intros fuel.
    replace (S k + fuel)%nat with (k + S fuel)%nat by lia. rewrite IH.
    cbn [page_loop]. destruct (Nat.ltb_spec pos (length data)) as [_|?]; [|lia].
    rewrite E. bind_step. reflexivity.
Qed.

Lemma page_loop_truncated (data : list Z) (pos count : nat) :
  Forall (fun d => 0 <= d) data ->
  polls data pos count -> (length data < pos + count)%nat ->
  exists msg, page_loop (S (length data)) data newFumenPage [] 0 = Throw msg.
Proof.
  intros Hd Hpolls Hlen.
  destruct (polls_truncated_page data pos count Hd Hpolls Hlen)
    as (prev & fumen & pos0 & msg & Hreach & Hpos0 & Hthrow).
  destruct (loop_reaches_resumes data Hd _ _ _ Hreach) as (k & Hk & Hres).
  replace (S (length data)) with (k + S (length data - k))%nat by lia.
  rewrite Hres. cbn [page_loop].
  destruct (Nat.ltb_spec pos0 (length data)) as [_|?]; [|lia].
  rewrite Hthrow. bind_step. eauto.
Qed.

(** C2: when [decode], run on the digits [numData] of a text that carries
    the format tag, calls [poll] for a field run, for the packed descriptor
    or inside a comment block at a position from which fewer digits remain
    than the call asks for, [decode] returns [null]: the pages parsed before
    that point are not returned. *)
Theorem truncated_stream_decodes_to_null (data : jsstring) (pos count : nat) :
  startsWith data FUMEN_VERSION = true ->
  polls (numData_of (drop (length FUMEN_VERSION) data)) pos count ->
  (length (numData_of (drop (length FUMEN_VERSION) data)) < pos + count)%nat ->
  decode data = Normal None.
Proof.
  intros Htag Hpolls Hlen. unfold decode. rewrite Htag.
  destruct (page_loop_truncated _ pos count (numData_of_nonneg _) Hpolls Hlen)
    as [msg ->]. reflexivity.
Qed.

Lemma truncated_stream_decodes_to_null_witness :
  startsWith (lit "v115@vhVgHvh") FUMEN_VERSION = true
  /\ polls (numData_of (drop (length FUMEN_VERSION) (lit "v115@vhVgHvh"))) 7 3
  /\ (length (numData_of (drop (length FUMEN_VERSION) (lit "v115@vhVgHvh"))) < 7 + 3)%nat
  /\ decode (lit "v115@vhVgHvh") = Normal None.
Proof.
  assert (P : polls (numData_of (drop (length FUMEN_VERSION) (lit "v115@vhVgHvh"))) 7 3).
  { apply (polls_descriptor _ page_T ([] ++ [page_T]) 5 empty_field 7).
    - apply (reaches_page _ newFumenPage [] 0 page_T 5);
        [constructor | vm_compute; lia | vm_compute; reflexivity].
    - vm_compute; lia.
    - vm_compute; reflexivity. }
  assert (L : (length (numData_of (drop (length FUMEN_VERSION) (lit "v115@vhVgHvh")))
               < 7 + 3)%nat) by (vm_compute; lia).
  split; [reflexivity|]. split; [exact P|]. split; [exact L|].
  exact (truncated_stream_decodes_to_null (lit "v115@vhVgHvh") 7 3 eq_refl P L).
Defined.

(** * Further properties of the code *)

(** ** [unpoll] and [poll] *)

Lemma unpoll_loop_app (n : nat) (value : Z) (result : jsstring) :
  unpoll_loop n value result = result ++ unpoll_loop n value [].
Proof.
  revert value result. induction n as [|n IH]; intros v result; cbn [unpoll_loop].
  - by rewrite app_nil_r.
  - rewrite IH, (IH _ (append_value [] _)). unfold append_value.
    by rewrite app_nil_l, <- app_assoc.
Qed.

(** X1: [poll] reads back what [unpoll] wrote exactly when the value fits
    the number of characters: for [value >= 0] and at most eight characters
    (where the sum of [poll] is exact in the source), polling the [n] digits
    of [unpoll(value, n)] gives [value] if and only if [value < 64^n]. *)
Theorem poll_unpoll_iff (value : Z) (n : nat) (post : list Z) :
  0 <= value -> (n <= 8)%nat ->
  (poll (numData_of (unpoll value n) ++ post) 0 n = Normal (value, n)
   <-> value < 64 ^ Z.of_nat n).
Proof.
  intros Hv _. rewrite poll_unpoll_wraps by assumption.
  assert (0 < 64 ^ Z.of_nat n) by (apply Z.pow_pos_nonneg; lia).
  split.
  - intros [= E]. pose proof (Z.mod_pos_bound value (64 ^ Z.of_nat n)). lia.
  - intros Hlt. by rewrite Z.mod_small by lia.
Qed.

Lemma poll_unpoll_iff_witness :
  0 <= 245759 /\ (3 <= 8)%nat
  /\ (poll (numData_of (unpoll 245759 3) ++ [5; 6]) 0 3 = Normal (245759, 3%nat)
      <-> 245759 < 64 ^ Z.of_nat 3).
Proof.
  split; [lia|]. split; [lia|]. apply (poll_unpoll_iff 245759 3 [5; 6]); lia.
Defined.

(** X2: for a value that is not negative, [unpoll(value, numChars)] has
    exactly [numChars] characters and each of them is a character of
    [ENCODE_TABLE]. *)
Theorem unpoll_writes_symbols (value : Z) (numChars : nat) :
  0 <= value ->
  length (unpoll value numChars) = numChars
  /\ Forall (fun c => c ∈ ENCODE_TABLE) (unpoll value numChars).
Proof.
  intros Hv. rewrite unpoll_digits by assumption. split.
  - by rewrite length_map, digits_length.
  - apply Forall_map. eapply Forall_impl; [apply digits_range|].
    intros d Hd. cbn beta.
    destruct (table_char_facts d Hd) as (Hidx & _ & _).
    unfold str_index in Hidx. destruct (d <? 0); [discriminate|].
    by eapply list_elem_of_lookup_2.
Qed.

Lemma unpoll_writes_symbols_witness :
  0 <= 2159
  /\ length (unpoll 2159 2) = 2%nat
  /\ Forall (fun c => c ∈ ENCODE_TABLE) (unpoll 2159 2).
Proof. split; [lia|]. apply (unpoll_writes_symbols 2159 2). lia. Defined.

(** X3: for a negative value that is not a multiple of 64, [value % 64] is
    negative, [ENCODE_TABLE[value % 64]] is [undefined], and [unpoll] writes
    the nine characters [undefined] in place of a symbol before it goes on
    with [Math.floor(value / 64)]. *)
Theorem unpoll_negative_writes_undefined (value : Z) (n : nat) :
  value < 0 -> Z.rem value 64 <> 0 ->
  unpoll value (S n) = lit "undefined" ++ unpoll (value / 64) n.
Proof.
  intros Hneg Hrem. unfold unpoll. cbn [unpoll_loop].
  rewrite unpoll_loop_app. f_equal.
  unfold str_index.
  pose proof (Z.rem_bound_pos_neg value 64 ltac:(lia) ltac:(lia)).
  destruct (Z.ltb_spec (Z.rem value 64) 0); [reflexivity | lia].
Qed.

Lemma unpoll_negative_writes_undefined_witness :
  -1 < 0 /\ Z.rem (-1) 64 <> 0
  /\ unpoll (-1) 2 = lit "undefined" ++ unpoll (-1 / 64) 1.
Proof.
  assert (R : Z.rem (-1) 64 <> 0) by (vm_compute; discriminate).
  split; [lia|]. split; [exact R|].
  exact (unpoll_negative_writes_undefined (-1) 1 ltac:(lia) R).
Defined.

Lemma poll_loop_bound (data : list Z) :
  Forall (fun d => 0 <= d < 64) data ->
  forall (n idx : nat) (value multiplier : Z),
    (idx + n <= length data)%nat -> 0 <= multiplier ->
    exists r, 0 <= r < 64 ^ Z.of_nat n
              /\ poll_loop n data idx value multiplier = value + multiplier * r.
Proof.
  intros Hd. induction n as [|n IH]; intros idx value m Hlen Hm; cbn [poll_loop].
  - exists 0. split; [cbn; lia | lia].
  - destruct (IH (S idx) (value + nth idx data 0 * m) (m * 64) ltac:(lia) ltac:(lia))
      as (r & Hr & ->).
    assert (Hx : 0 <= nth idx data 0 < 64).
    { rewrite Forall_forall in Hd. apply Hd, list_elem_of_In, nth_In. lia. }
    exists (nth idx data 0 + 64 * r). split; [|lia].
    rewrite Nat2Z.inj_succ, Z.pow_succ_r by lia. lia.
Qed.

(** X4: on a stream of base-64 digits, a [poll] of at most eight digits
    (where its sum is exact in the source) that has [count] digits left from
    the cursor succeeds, moves the cursor by exactly [count], and returns a
    value in [0, 64^count). *)
Theorem poll_value_range (data : list Z) (pos count : nat) :
  Forall (fun d => 0 <= d < 64) data ->
  (count <= 8)%nat ->
  (pos + count <= length data)%nat ->
  exists value,
    poll data pos count = Normal (value, (pos + count)%nat)
    /\ 0 <= value < 64 ^ Z.of_nat count.
Proof.
  intros Hd _ Hlen.
  destruct (poll_cases data pos count) as [[Hlt _] | [_ ->]]; [lia|].
  destruct (poll_loop_bound data Hd count pos 0 1 Hlen ltac:(lia)) as (r & Hr & E).
  eexists. split; [reflexivity|]. rewrite E. lia.
Qed.

Lemma poll_value_range_witness :
  Forall (fun d => 0 <= d < 64) [47; 33; 21; 32; 7]
  /\ (3 <= 8)%nat
  /\ (2 + 3 <= length [47; 33; 21; 32; 7])%nat
  /\ exists value,
       poll [47; 33; 21; 32; 7] 2 3 = Normal (value, (2 + 3)%nat)
       /\ 0 <= value < 64 ^ Z.of_nat 3.
Proof.
  assert (D : Forall (fun d => 0 <= d < 64) [47; 33; 21; 32; 7]) by by_computation.
  assert (L : (2 + 3 <= length [47; 33; 21; 32; 7])%nat) by (cbn; lia).
  split; [exact D|]. split; [lia|]. split; [exact L|].
  exact (poll_value_range [47; 33; 21; 32; 7] 2 3 D ltac:(lia) L).
Defined.

(** ** [init] and the digit of a character *)

Lemma decode_table_entries :
  Forall (fun kv => kv.1 = [table_char kv.2] /\ 0 <= kv.2 < 64)
    (map_to_list DECODE_TABLE).
Proof. by_computation. Qed.

Lemma decode_table_lookups :
  forallb (fun i => bool_decide (DECODE_TABLE !! [table_char i] = Some i))
    (map Z.of_nat (seq 0 64)) = true.
Proof. vm_compute. reflexivity. Qed.

(** X5: the table that [init] builds inverts [ENCODE_TABLE], and every other
    character counts as digit 0: [DECODE_TABLE.get(char) || 0] is [i] for
    the character [ENCODE_TABLE[i]], and 0 for every string that is not one
    of the 64 characters. *)
Theorem digit_of_table :
  (forall i, 0 <= i < 64 -> digit_of [table_char i] = i)
  /\ (forall char, (forall i, 0 <= i < 64 -> char <> [table_char i]) ->
                   digit_of char = 0).
Proof.
  split.
  - intros i Hi. unfold digit_of.
    pose proof decode_table_lookups as H. rewrite forallb_forall in H.
    specialize (H i). rewrite bool_decide_eq_true in H. rewrite H; [reflexivity|].
    apply in_map_iff. exists (Z.to_nat i). split; [lia|]. apply in_seq. lia.
  - intros char Hno. unfold digit_of.
    destruct (DECODE_TABLE !! char) as [v|] eqn:E; [|reflexivity].
    exfalso. apply elem_of_map_to_list in E.
    pose proof decode_table_entries as H. rewrite Forall_forall in H.
    destruct (H _ E) as [Hk Hv]. cbn [fst snd] in *. by apply (Hno v).
Qed.

Lemma digit_of_table_witness :
  digit_of [table_char 63] = 63 /\ digit_of (lit "#") = 0.
Proof.
  destruct digit_of_table as [H1 H2]. split.
  - apply H1. lia.
  - apply H2. intros i Hi.
    assert (G : forallb (fun i => negb (bool_decide (lit "#" = [table_char i])))
                  (map Z.of_nat (seq 0 64)) = true) by (vm_compute; reflexivity).
    rewrite forallb_forall in G. specialize (G i).
    rewrite negb_true_iff, bool_decide_eq_false in G. apply G.
    apply in_map_iff. exists (Z.to_nat i). split; [lia|]. apply in_seq. lia.
Defined.

(** ** Texts without digits *)

Lemma concat_chars (s : jsstring) : concat (chars s) = s.
Proof.
  induction s as [s IH] using (induction_ltof1 _ (@length Z)). unfold ltof in IH.
  destruct s as [|c [|d rest]]; [reflexivity | reflexivity |].
  cbn [chars]. destruct (isHighSurrogate c && isLowSurrogate d).
  - transitivity (c :: d :: concat (chars rest)); [reflexivity|].
    do 2 f_equal. apply IH. cbn [length]. lia.
  - transitivity (c :: concat (chars (d :: rest))); [reflexivity|].
    f_equal. apply IH. cbn [length]. lia.
Qed.

Lemma numData_of_nil_iff (body : jsstring) :
  numData_of body = [] <-> Forall (fun c => c = 63) body.
Proof.
  rewrite numData_of_flat_map. split.
  - intros H. rewrite <- (concat_chars body).
    induction (chars body) as [|ch cs IH]; [constructor|].
    cbn [flat_map] in H. apply app_eq_nil in H as [Hch Hcs].
    cbn [concat]. apply Forall_app. split; [|by apply IH].
    unfold char_digits in Hch. destruct (bool_decide_reflect (ch = lit "?")) as [->|];
      [|discriminate].
    repeat constructor.
  - intros H. rewrite chars_single_units.
    + induction H as [|c s -> _ IH]; [reflexivity|]. cbn [map flat_map]. by rewrite IH.
    + eapply Forall_impl; [exact H|]. intros c ->. reflexivity.
Qed.

(** X6: a text with the format tag decodes to a [Fumen] without pages
    exactly when nothing but filler characters [?] follows the tag (the bare
    tag included); any other character starts a page, so the result is then
    [null] or has at least one page. *)
Theorem decode_no_pages_iff (body : jsstring) :
  decode (FUMEN_VERSION ++ body) = Normal (Some (mkFumen []))
  <-> Forall (fun c => c = 63) body.
Proof.
  rewrite decode_tagged, <- numData_of_nil_iff. split.
  - destruct (numData_of body) as [|d ds] eqn:E; [reflexivity|].
    cbn [page_loop]. change (0 <? length (d :: ds))%nat with true.
    destruct (parse_page (d :: ds) newFumenPage 0) as [[pg pos']| |]; bind_step;
      [|discriminate|discriminate].
    destruct (page_loop _ _ pg ([] ++ [pg]) pos') as [r| |] eqn:L; try discriminate.
    apply page_loop_extends in L as [rest ->]. discriminate.
  - intros ->. reflexivity.
Qed.

Lemma decode_no_pages_iff_witness :
  Forall (fun c => c = 63) (lit "??")
  /\ decode (FUMEN_VERSION ++ lit "??") = Normal (Some (mkFumen [])).
Proof.
  assert (W : Forall (fun c => c = 63) (lit "??")) by by_computation.
  split; [exact W|].
  exact (proj2 (decode_no_pages_iff (lit "??")) W).
Defined.

(** ** What a decoded page looks like *)

Lemma page_loop_chained (P : FumenPage -> FumenPage -> Prop) (data : list Z) :
  (forall prev pos page pos',
      parse_page data prev pos = Normal (page, pos') -> P prev page) ->
  forall fuel prev fumen pos r,
    page_loop fuel data prev fumen pos = Normal r ->
    exists rest, r = fumen ++ rest /\ chained P prev rest.
Proof.
  intros HP. induction fuel as [|fuel IH]; intros prev fumen pos r; cbn [page_loop];
    destruct (pos <? length data)%nat; try discriminate.
  - intros [= <-]. exists []. by rewrite app_nil_r.
  - destruct (parse_page data prev pos) as [[pg pos']| |] eqn:E; bind_step;
      try discriminate.
    intros H. apply IH in H as (rest & -> & Hrest). exists (pg :: rest).
    split; [by rewrite <- app_assoc|]. cbn [chained]. split; [|assumption].
    by apply (HP prev pos pg pos').
  - intros [= <-]. exists []. by rewrite app_nil_r.
Qed.

Lemma decode_chained (P : FumenPage -> FumenPage -> Prop) (data : jsstring)
    (fumen : Fumen) :
  (forall prev pos page pos',
      parse_page (numData_of (drop (length FUMEN_VERSION) data)) prev pos
      = Normal (page, pos') -> P prev page) ->
  decode data = Normal (Some fumen) ->
  chained P newFumenPage (pages fumen).
Proof.
  intros HP. unfold decode. destruct (startsWith data FUMEN_VERSION); [|discriminate].
  destruct (page_loop _ _ newFumenPage [] 0) as [r| |] eqn:E; try discriminate.
  intros [= <-]. cbn [pages].
  apply (page_loop_chained P _ HP) in E as (rest & -> & H). exact H.
Qed.

Lemma parse_page_inv (data : list Z) (prev : FumenPage) (pos : nat)
    (page : FumenPage) (pos' : nat) :
  parse_page data prev pos = Normal (page, pos') ->
  exists pos1 value,
    parse_field data (field prev) pos = Normal (field page, pos1)
    /\ poll data pos1 3 = Normal (value, (pos1 + 3)%nat)
    /\ piece page = d_piece (unpack_descriptor value)
    /\ (if d_hasComment (unpack_descriptor value)
        then parse_comment data (pos1 + 3) = Normal (comment (flags page), pos')
        else comment (flags page) = []).
Proof.
  unfold parse_page.
  destruct (parse_field data (field prev) pos) as [[cf pos1]| |]; bind_step;
    try discriminate.
  unfold parse_descriptor.
  destruct (poll_cases data pos1 3) as [[_ E] | [_ E]]; rewrite E; bind_step;
    [discriminate|].
  set (d := unpack_descriptor _).
  destruct (d_hasComment d) eqn:Hhas.
  - destruct (parse_comment data (pos1 + 3)) as [[c pos3]| |] eqn:Ec; bind_step;
      try discriminate.
    intros [= <- <-]. exists pos1, (poll_loop 3 data pos1 0 1).
    fold d. rewrite Hhas. auto.
  - bind_step. intros [= <- <-]. exists pos1, (poll_loop 3 data pos1 0 1).
    fold d. rewrite Hhas. auto.
Qed.

Lemma unpack_descriptor_piece_range (value : Z) :
  0 <= value ->
  let pc := d_piece (unpack_descriptor value) in
  0 <= type pc < 8 /\ 0 <= rotation pc < 4 /\ 0 <= location pc < 240.
Proof.
  intros Hv. unfold unpack_descriptor. cbn [d_piece type rotation location].
  change FIELD_NUM_CELLS with 240.
  assert (0 <= value / 8) by (apply Z.div_pos; lia).
  assert (0 <= value / 8 / 4) by (apply Z.div_pos; lia).
  repeat split; try (apply Z.rem_bound_pos; lia).
Qed.

Lemma fill_run_length (n : nat) (prevField : list Z) (diff : Z) :
  forall (curField : list Z) (cellCount : nat),
    length (fill_run n prevField diff curField cellCount).1 = length curField.
Proof.
  induction n as [|n IH]; intros cf cc; cbn [fill_run]; [reflexivity|].
  destruct (Z.of_nat cc <? FIELD_NUM_CELLS); [|reflexivity].
  by rewrite IH, length_insert.
Qed.

Lemma field_loop_length (data prevField : list Z) (fuel : nat) :
  forall (curField : list Z) (cellCount pos : nat) (cf' : list Z) (pos' : nat),
    field_loop fuel data prevField curField cellCount pos = Normal (cf', pos') ->
    length cf' = length curField.
Proof.
  induction fuel as [|fuel IH]; intros cf cc pos cf' pos'; cbn [field_loop];
    destruct (Z.of_nat cc <? FIELD_NUM_CELLS); try discriminate;
    try (by intros [= <- <-]).
  destruct (poll data pos 2) as [[value p]| |]; bind_step; try discriminate.
  pose proof (fill_run_length (Z.to_nat (Z.rem value FIELD_NUM_CELLS + 1)) prevField
                (value / FIELD_NUM_CELLS) cf cc) as Hl.
  destruct (fill_run _ prevField _ cf cc) as [cf1 cc1]. cbn [fst] in Hl.
  intros H. apply IH in H. lia.
Qed.

Lemma poll_nonneg (data : list Z) (pos count : nat) (value : Z) (pos' : nat) :
  Forall (fun d => 0 <= d < 64) data ->
  poll data pos count = Normal (value, pos') ->
  0 <= value < 64 ^ Z.of_nat count.
Proof.
  intros Hd H. apply poll_normal_inv in H as (-> & _ & Hle).
  destruct (poll_loop_bound data Hd count pos 0 1 Hle ltac:(lia)) as (r & Hr & ->). lia.
Qed.

(** X7: whatever the text, every page that [decode] returns has a field of
    240 cells, a piece type in [0,8), a rotation in [0,4) and a location in
    [0,240). *)
Theorem decoded_pages_in_range (data : jsstring) (fumen : Fumen) :
  decode data = Normal (Some fumen) ->
  Forall (fun page =>
            length (field page) = 240%nat
            /\ 0 <= type (piece page) < 8
            /\ 0 <= rotation (piece page) < 4
            /\ 0 <= location (piece page) < 240)
    (pages fumen).
Proof.
  intros H.
  apply (decode_chained
           (fun _ page => length (field page) = 240%nat
                          /\ 0 <= type (piece page) < 8
                          /\ 0 <= rotation (piece page) < 4
                          /\ 0 <= location (piece page) < 240)) in H.
  - revert H. generalize newFumenPage.
    induction (pages fumen) as [|p ps IH]; intros prev Hc; constructor.
    + apply Hc.
    + apply (IH p), Hc.
  - intros prev pos page pos' Hp.
    apply parse_page_inv in Hp as (pos1 & value & Hf & Hpoll & Hpc & _).
    split.
    + unfold parse_field in Hf. apply field_loop_length in Hf. rewrite Hf. reflexivity.
    + rewrite Hpc. apply unpack_descriptor_piece_range.
      apply (poll_nonneg _ _ _ _ _ (numData_of_range _) Hpoll).
Qed.

Lemma decoded_pages_in_range_witness :
  decode (lit "v115@vhVgH") = Normal (Some (mkFumen [page_T]))
  /\ Forall (fun page =>
               length (field page) = 240%nat
               /\ 0 <= type (piece page) < 8
               /\ 0 <= rotation (piece page) < 4
               /\ 0 <= location (piece page) < 240)
       [page_T].
Proof.
  assert (D : decode (lit "v115@vhVgH") = Normal (Some (mkFumen [page_T])))
    by (vm_compute; reflexivity).
  split; [exact D|].
  exact (decoded_pages_in_range (lit "v115@vhVgH") (mkFumen [page_T]) D).
Defined.

Lemma fill_run_delta (prevField : list Z) (diff : Z) (n : nat) :
  0 <= diff <= 17 ->
  forall (curField : list Z) (cellCount : nat),
    length curField = 240%nat ->
    (forall i, (i < cellCount)%nat -> -8 <= nth i curField 0 - nth i prevField 0 <= 9) ->
    let r := fill_run n prevField diff curField cellCount in
    forall i, (i < r.2)%nat -> -8 <= nth i r.1 0 - nth i prevField 0 <= 9.
Proof.
  intros Hdiff. induction n as [|n IH]; intros cf cc Hlen Hinv; cbn [fill_run].
  - exact Hinv.
  - change FIELD_NUM_CELLS with 240.
    destruct (Z.ltb_spec (Z.of_nat cc) 240) as [Hcc|_]; [|exact Hinv].
    apply IH; [by rewrite length_insert|].
    intros i Hi. rewrite (nth_lookup (<[cc:=_]> cf)).
    destruct (decide (i = cc)) as [->|Hne].
    + rewrite list_lookup_insert_eq by lia. cbn [from_option id]. lia.
    + rewrite list_lookup_insert_ne by congruence.
      rewrite <- nth_lookup. apply Hinv. lia.
Qed.

Lemma field_loop_delta (data prevField : list Z) (fuel : nat) :
  Forall (fun d => 0 <= d < 64) data ->
  forall (curField : list Z) (cellCount pos : nat) (cf' : list Z) (pos' : nat),
    length curField = 240%nat ->
    (forall i, (i < cellCount)%nat -> -8 <= nth i curField 0 - nth i prevField 0 <= 9) ->
    field_loop fuel data prevField curField cellCount pos = Normal (cf', pos') ->
    forall i, (i < 240)%nat -> -8 <= nth i cf' 0 - nth i prevField 0 <= 9.
Proof.
  intros Hd. induction fuel as [|fuel IH]; intros cf cc pos cf' pos' Hlen Hinv;
    cbn [field_loop]; change FIELD_NUM_CELLS with 240;
    destruct (Z.ltb_spec (Z.of_nat cc) 240) as [Hcc|Hcc]; try discriminate;
    try (intros [= <- <-] i Hi; apply Hinv; lia).
  destruct (poll data pos 2) as [[value p]| |] eqn:Hpoll; bind_step; try discriminate.
  pose proof (poll_nonneg _ _ _ _ _ Hd Hpoll) as Hv.
  change (64 ^ Z.of_nat 2) with 4096 in Hv.
  assert (Hdiff : 0 <= value / 240 <= 17).
  { split; [apply Z.div_pos; lia|]. apply Z.lt_succ_r, Z.div_lt_upper_bound; lia. }
  pose proof (fill_run_delta prevField (value / 240) (Z.to_nat (Z.rem value 240 + 1))
                Hdiff cf cc Hlen Hinv) as Hr.
  pose proof (fill_run_length (Z.to_nat (Z.rem value 240 + 1)) prevField
                (value / 240) cf cc) as Hl.
  cbv zeta in Hr.
  destruct (fill_run _ prevField (value / 240) cf cc) as [cf1 cc1].
  cbn [fst snd] in *. apply IH; [lia | exact Hr].
Qed.

(** X8: every cell of a decoded page differs from the same cell of the page
    decoded before it (the all-zero page for the first) by at least -8 and
    at most 9: a run entry carries a diff of 0 to 17, read with the bias 8. *)
Theorem decoded_cells_step (data : jsstring) (fumen : Fumen) :
  decode data = Normal (Some fumen) ->
  chained (fun prev page =>
             forall i, (i < 240)%nat ->
                       -8 <= nth i (field page) 0 - nth i (field prev) 0 <= 9)
    newFumenPage (pages fumen).
Proof.
  apply decode_chained. intros prev pos page pos' Hp.
  apply parse_page_inv in Hp as (pos1 & value & Hf & _).
  unfold parse_field in Hf.
  assert (Hlen : length (field newFumenPage) = 240%nat) by reflexivity.
  refine (field_loop_delta _ _ _ (numData_of_range _) _ _ _ _ _ Hlen _ Hf).
  intros i Hi. lia.
Qed.

Lemma decoded_cells_step_witness :
  decode (lit "v115@vhVgH") = Normal (Some (mkFumen [page_T]))
  /\ chained (fun prev page =>
                forall i, (i < 240)%nat ->
                          -8 <= nth i (field page) 0 - nth i (field prev) 0 <= 9)
       newFumenPage [page_T].
Proof.
  assert (D : decode (lit "v115@vhVgH") = Normal (Some (mkFumen [page_T])))
    by (vm_compute; reflexivity).
  split; [exact D|].
  exact (decoded_cells_step (lit "v115@vhVgH") (mkFumen [page_T]) D).
Defined.

(** ** [percentDecode] on any string *)

Lemma percentDecode_loop_length (s : jsstring) :
  forall result,
    (length (percentDecode_loop s result) <= length result + length s)%nat.
Proof.
  induction s as [s IH] using (induction_ltof1 _ (@length Z)). unfold ltof in IH.
  intros result. destruct s as [|c rest]; cbn [percentDecode_loop length]; [lia|].
  assert (Hrest : forall r, (length (percentDecode_loop rest (r ++ [c]))
                             <= length r + S (length rest))%nat).
  { intros r. pose proof (IH rest ltac:(cbn [length]; lia) (r ++ [c])) as H.
    rewrite length_app in H. cbn [length] in H. lia. }
  destruct rest as [|h1 [|h2 rest']]; try apply Hrest.
  destruct (bool_decide (c = 37)); [|apply Hrest].
  destruct (isHexDigit h1 && isHexDigit h2); [|apply Hrest].
  pose proof (IH rest' ltac:(cbn [length]; lia) (result ++ [parseHex2 h1 h2])) as H.
  rewrite length_app in H. cbn [length] in *. lia.
Qed.

Lemma isHexDigit_value (h : Z) : isHexDigit h = true -> 0 <= hexDigitValue h <= 15.
Proof.
  unfold isHexDigit, hexDigitValue. intros H.
  destruct (Z.leb_spec h 57), (Z.leb_spec h 70), (Z.leb_spec 48 h),
    (Z.leb_spec 65 h), (Z.leb_spec 97 h), (Z.leb_spec h 102);
    cbn in H; try discriminate; lia.
Qed.

Lemma percentDecode_loop_bytes (s : jsstring) :
  forall result,
    Forall (fun c => 0 <= c <= 255) result -> Forall (fun c => 0 <= c <= 255) s ->
    Forall (fun c => 0 <= c <= 255) (percentDecode_loop s result).
Proof.
  induction s as [s IH] using (induction_ltof1 _ (@length Z)). unfold ltof in IH.
  intros result Hres Hs. destruct s as [|c rest]; cbn [percentDecode_loop]; [exact Hres|].
  apply Forall_cons in Hs as [Hc Hrest].
  assert (Hlit : Forall (fun c => 0 <= c <= 255) (percentDecode_loop rest (result ++ [c]))).
  { apply IH; [cbn [length]; lia | | exact Hrest].
    apply Forall_app. split; [exact Hres | by constructor]. }
  destruct rest as [|h1 [|h2 rest']]; try exact Hlit.
  destruct (bool_decide (c = 37)); [|exact Hlit].
  destruct (isHexDigit h1 && isHexDigit h2) eqn:Hhex; [|exact Hlit].
  apply andb_prop in Hhex as [H1 H2].
  apply isHexDigit_value in H1, H2.
  apply Forall_cons in Hrest as [_ Hrest]. apply Forall_cons in Hrest as [_ Hrest].
  apply IH; [cbn [length]; lia | | exact Hrest].
  apply Forall_app. split; [exact Hres|]. constructor; [|constructor].
  unfold parseHex2. lia.
Qed.

(** X9: [percentDecode] never lengthens a string: every character is kept
    or three characters [%XX] become one. *)
Theorem percentDecode_length (str : jsstring) :
  (length (percentDecode str) <= length str)%nat.
Proof. apply (percentDecode_loop_length str []). Qed.

Lemma percentDecode_loop_plain (s : jsstring) :
  Forall (fun c => c <> 37) s ->
  forall result, percentDecode_loop s result = result ++ s.
Proof.
  induction 1 as [|c rest Hc _ IH]; intros result; cbn [percentDecode_loop].
  - by rewrite app_nil_r.
  - assert (E : percentDecode_loop rest (result ++ [c]) = result ++ c :: rest)
      by (by rewrite IH, <- app_assoc).
    destruct rest as [|h1 [|h2 rest']]; try exact E.
    by rewrite bool_decide_eq_false_2.
Qed.

(** X10: a string without the character [%] is left as it is by
    [percentDecode]. *)
Theorem percentDecode_without_percent (str : jsstring) :
  Forall (fun c => c <> 37) str -> percentDecode str = str.
Proof. intros H. apply (percentDecode_loop_plain str H []). Qed.

Lemma percentDecode_without_percent_witness :
  Forall (fun c => c <> 37) (lit "T-spin double!")
  /\ percentDecode (lit "T-spin double!") = lit "T-spin double!".
Proof.
  assert (W : Forall (fun c => c <> 37) (lit "T-spin double!")) by by_computation.
  split; [exact W|]. exact (percentDecode_without_percent _ W).
Defined.

Lemma chunk_chars_bytes (n : nat) :
  forall (chunkValue : Z) (escaped : jsstring),
    0 <= chunkValue -> Forall (fun c => 0 <= c <= 255) escaped ->
    Forall (fun c => 0 <= c <= 255) (chunk_chars n chunkValue escaped).
Proof.
  induction n as [|n IH]; intros cv e Hcv He; cbn [chunk_chars]; [exact He|].
  apply IH; [apply Z.div_pos; lia|].
  apply Forall_app. split; [exact He|]. constructor; [|constructor].
  pose proof (Z.rem_bound_pos cv 96 Hcv ltac:(lia)). lia.
Qed.

Lemma chunk_loop_bytes (data : list Z) (numChunks : nat) :
  Forall (fun d => 0 <= d < 64) data ->
  forall (escaped : jsstring) (pos : nat) (escaped' : jsstring) (pos' : nat),
    Forall (fun c => 0 <= c <= 255) escaped ->
    chunk_loop numChunks data escaped pos = Normal (escaped', pos') ->
    Forall (fun c => 0 <= c <= 255) escaped'.
Proof.
  intros Hd. induction numChunks as [|n IH]; intros e pos e' pos' He; cbn [chunk_loop].
  - by intros [= <- <-].
  - destruct (poll data pos 5) as [[cv p]| |] eqn:Hpoll; bind_step; try discriminate.
    apply IH. apply chunk_chars_bytes; [|exact He].
    apply (poll_nonneg _ _ _ _ _ Hd Hpoll).
Qed.

Lemma parse_comment_bounds (data : list Z) (pos : nat) (c : jsstring) (pos' : nat) :
  Forall (fun d => 0 <= d < 64) data ->
  parse_comment data pos = Normal (c, pos') ->
  (length c <= 4095)%nat /\ Forall (fun x => 0 <= x <= 255) c.
Proof.
  intros Hd. unfold parse_comment.
  destruct (poll data pos 2) as [[len p]| |] eqn:Hpoll; bind_step; try discriminate.
  destruct (chunk_loop _ data [] p) as [[e p']| |] eqn:Hchunks; bind_step;
    try discriminate.
  intros [= <- <-].
  pose proof (poll_nonneg _ _ _ _ _ Hd Hpoll) as Hlen.
  change (64 ^ Z.of_nat 2) with 4096 in Hlen.
  apply (chunk_loop_bytes _ _ Hd) in Hchunks; [|constructor].
  split.
  - pose proof (percentDecode_loop_length (take (Z.to_nat len) e) []) as H.
    unfold percentDecode. rewrite length_take in H. cbn [length] in H. lia.
  - apply percentDecode_loop_bytes; [constructor|]. by apply Forall_take.
Qed.

(** X11: whatever the text, the comment of every page that [decode] returns
    has at most 4095 characters, each with a code of at most 255. *)
Theorem decoded_comment_bounds (data : jsstring) (fumen : Fumen) :
  decode data = Normal (Some fumen) ->
  Forall (fun page =>
            (length (comment (flags page)) <= 4095)%nat
            /\ Forall (fun c => 0 <= c <= 255) (comment (flags page)))
    (pages fumen).
Proof.
  intros H.
  apply (decode_chained
           (fun _ page => (length (comment (flags page)) <= 4095)%nat
                          /\ Forall (fun c => 0 <= c <= 255) (comment (flags page))))
    in H.
  - revert H. generalize newFumenPage.
    induction (pages fumen) as [|p ps IH]; intros prev Hc; constructor.
    + apply Hc.
    + apply (IH p), Hc.
  - intros prev pos page pos' Hp.
    apply parse_page_inv in Hp as (pos1 & value & _ & _ & _ & Hc).
    destruct (d_hasComment (unpack_descriptor value)).
    + apply (parse_comment_bounds _ _ _ _ (numData_of_range _) Hc).
    + rewrite Hc. split; [cbn; lia | constructor].
Qed.

Lemma decoded_comment_bounds_witness :
  decode (lit "v115@vhVgWEAhoA6A") = Normal (Some (mkFumen
    [mkPage empty_field (mkPiece 5 2 0) (mkFlags false false true true (lit "a!"))]))
  /\ Forall (fun page =>
               (length (comment (flags page)) <= 4095)%nat
               /\ Forall (fun c => 0 <= c <= 255) (comment (flags page)))
       [mkPage empty_field (mkPiece 5 2 0) (mkFlags false false true true (lit "a!"))].
Proof.
  assert (D : decode (lit "v115@vhVgWEAhoA6A") = Normal (Some (mkFumen
    [mkPage empty_field (mkPiece 5 2 0) (mkFlags false false true true (lit "a!"))])))
    by (vm_compute; reflexivity).
  split; [exact D|].
  exact (decoded_comment_bounds _ _ D).
Defined.

(** ** [percentEncode] on any string *)

Lemma chars_shapes (s : jsstring) :
  Forall (fun ch => (exists c, ch = [c])
                    \/ (exists c d, ch = [c; d] /\ isHighSurrogate c = true))
    (chars s).
Proof.
  induction s as [s IH] using (induction_ltof1 _ (@length Z)). unfold ltof in IH.
  destruct s as [|c [|d rest]]; cbn [chars].
  - constructor.
  - constructor; [left; eauto | constructor].
  - destruct (isHighSurrogate c) eqn:Hc; cbn [andb].
    + destruct (isLowSurrogate d).
      * constructor; [right; eauto|]. apply (IH rest). cbn [length]. lia.
      * constructor; [left; eauto|]. apply (IH (d :: rest)). cbn [length]. lia.
    + constructor; [left; eauto|]. apply (IH (d :: rest)). cbn [length]. lia.
Qed.

Lemma hex_digits_safe (u : Hexadecimal.uint) :
  Forall (fun c => url_safe c = true) (hex_digits u).
Proof. induction u; cbn [hex_digits]; constructor; auto. Qed.

Lemma percent_char_safe (ch : jsstring) :
  (exists c, ch = [c]) \/ (exists c d, ch = [c; d] /\ isHighSurrogate c = true) ->
  Forall (fun c => url_safe c = true) (percent_char ch).
Proof.
  intros Hshape. unfold percent_char.
  destruct (passes_through ch) eqn:Hp.
  - destruct Hshape as [[c ->] | (c & d & -> & Hhigh)].
    + constructor; [|constructor]. unfold passes_through in Hp.
      cbn [charCodeAt0 hd] in Hp. unfold url_safe.
      destruct ((48 <=? c) && (c <=? 57)); [reflexivity|].
      destruct ((65 <=? c) && (c <=? 90)); [reflexivity|].
      destruct ((97 <=? c) && (c <=? 122)); [reflexivity|].
      cbn [orb] in *. apply bool_decide_eq_true_2.
      repeat (apply orb_prop in Hp as [Hp|Hp]);
        apply bool_decide_eq_true_1 in Hp; injection Hp as ->; set_solver.
    + exfalso. unfold passes_through in Hp. cbn [charCodeAt0 hd] in Hp.
      unfold isHighSurrogate in Hhigh. apply andb_prop in Hhigh as [Hlo _].
      apply Z.leb_le in Hlo.
      destruct (Z.leb_spec c 57); [lia|]. destruct (Z.leb_spec c 90); [lia|].
      destruct (Z.leb_spec c 122); [lia|].
      rewrite !andb_false_r in Hp. cbn [orb] in Hp.
      repeat (apply orb_prop in Hp as [Hp|Hp]);
        apply bool_decide_eq_true_1 in Hp; discriminate.
  - apply Forall_app. split; [|apply hex_digits_safe].
    apply Forall_app. split; [repeat constructor|].
    destruct (_ <? _)%nat; repeat constructor.
Qed.

(** X12: whatever the string, [percentEncode] writes only digits, letters
    and the characters [-], [_], [.], [~] and [%]. *)
Theorem percentEncode_charset (str : jsstring) :
  Forall (fun c => url_safe c = true) (percentEncode str).
Proof.
  rewrite percentEncode_flat_map.
  pose proof (chars_shapes str) as H.
  induction H as [|ch cs Hch _ IH]; cbn [flat_map]; [constructor|].
  apply Forall_app. split; [by apply percent_char_safe | exact IH].
Qed.

Lemma percent_char_byte_length (c : Z) :
  0 <= c <= 255 -> (1 <= length (percent_char [c]) <= 3)%nat.
Proof.
  intros Hc. pose proof (percent_char_ok_byte c Hc) as H. unfold percent_char_ok in H.
  destruct (percent_char [c]) as [|x [|h1 [|h2 [|? ?]]]]; try discriminate;
    cbn [length]; lia.
Qed.

(** X13: on a string of characters with codes up to 255, [percentEncode]
    writes one or three characters per character: the result is at least as
    long as the string and at most three times as long. *)
Theorem percentEncode_length (str : jsstring) :
  Forall (fun c => 0 <= c <= 255) str ->
  (length str <= length (percentEncode str) <= 3 * length str)%nat.
Proof.
  intros Hs. rewrite percentEncode_bytes by assumption.
  induction Hs as [|c s Hc _ IH]; cbn [map flat_map length]; [lia|].
  rewrite length_app. pose proof (percent_char_byte_length c Hc). lia.
Qed.

Lemma percentEncode_length_witness :
  Forall (fun c => 0 <= c <= 255) (lit "a b")
  /\ (length (lit "a b") <= length (percentEncode (lit "a b")) <= 3 * length (lit "a b"))%nat.
Proof.
  assert (W : Forall (fun c => 0 <= c <= 255) (lit "a b")) by by_computation.
  split; [exact W|]. exact (percentEncode_length _ W).
Defined.

(** ** [encode] page by page *)

Lemma encode_chunks_loop_app (n : nat) (esc : jsstring) :
  forall (i : nat) (result : jsstring),
    encode_chunks_loop n esc i result = result ++ encode_chunks_loop n esc i [].
Proof.
  induction n as [|n IH]; intros i result; cbn [encode_chunks_loop].
  - by rewrite app_nil_r.
  - rewrite IH, (IH _ ([] ++ _)). by rewrite app_nil_l, <- app_assoc.
Qed.

Lemma encode_page_app (result : jsstring) (prevPage page : FumenPage) :
  encode_page result prevPage page = result ++ encode_page [] prevPage page.
Proof.
  unfold encode_page. rewrite !encode_field_runs. cbn [app].
  destruct (0 <? length (comment (flags page)))%nat.
  - unfold encode_comment. rewrite encode_chunks_loop_app.
    rewrite (encode_chunks_loop_app _ _ _ ((_ ++ _) ++ _)).
    by rewrite <- !app_assoc.
  - by rewrite <- !app_assoc.
Qed.

Lemma last_default_cons (l : list FumenPage) (q a b : FumenPage) :
  default a (last (q :: l)) = default b (last (q :: l)).
Proof.
  revert q. induction l as [|x l IH]; intros q; [reflexivity|].
  rewrite !last_cons_cons. apply IH.
Qed.

Lemma encode_loop_snoc (pages_ : list FumenPage) (page : FumenPage) :
  forall (prevPage : FumenPage) (result : jsstring),
    encode_loop (pages_ ++ [page]) prevPage result
    = encode_page (encode_loop pages_ prevPage result)
        (default prevPage (last pages_)) page.
Proof.
  induction pages_ as [|p ps IH]; intros prev result; [reflexivity|].
  cbn [app encode_loop]. rewrite IH.
  destruct ps as [|q qs]; [reflexivity|].
  rewrite (last_default_cons qs q p prev). reflexivity.
Qed.

(** X14: adding a page to a [Fumen] only adds text: the encoding of
    [addPage(newPage)] is the encoding of the pages before, followed by the
    text of the new page diffed against the last page (the all-zero page
    when there is none). *)
Theorem encode_addPage (fumen : Fumen) (newPage : FumenPage) :
  encode (addPage fumen newPage)
  = encode fumen
    ++ encode_page [] (default newFumenPage (last (getPages fumen))) newPage.
Proof.
  unfold encode, addPage, getPages. cbn [pages].
  by rewrite encode_loop_snoc, encode_page_app.
Qed.

(** ** The runs of a field *)

Lemma covers_run_cells (curField prevField : list Z) (s : nat) (rs : list (Z * Z)) :
  covers curField prevField s rs -> Z.of_nat s + run_cells rs = 240.
Proof.
  induction 1 as [|s d c rs Hc _ _ IH]; cbn [run_cells foldr]; [lia|].
  cbn [snd]. fold (run_cells rs). lia.
Qed.

Lemma runs_loop_alternate (curField prevField : list Z) (n : nat) :
  forall (i : nat) (lastDiff diffCount : Z),
    (0 < i)%nat ->
    exists c rest,
      runs_loop n curField prevField i lastDiff diffCount = (lastDiff, c) :: rest
      /\ diffs_alternate ((lastDiff, c) :: rest).
Proof.
  induction n as [|n IH]; intros i lastDiff diffCount Hi; cbn [runs_loop].
  - exists diffCount, []. split; [reflexivity | exact I].
  - destruct (Nat.ltb_spec 0 i) as [_|?]; [|lia]. cbn [andb].
    destruct (Z.eqb_spec (diff_at curField prevField i) lastDiff) as [Heq|Hne];
      cbn [negb].
    + rewrite Heq. apply IH. lia.
    + destruct (IH (S i) (diff_at curField prevField i) 1 ltac:(lia))
        as (c & rest & -> & Halt).
      exists diffCount, ((diff_at curField prevField i, c) :: rest).
      split; [reflexivity|]. cbn [diffs_alternate fst]. split; [congruence | exact Halt].
Qed.

(** X15: whatever two fields of 240 cells hold, the run entries that
    [encode] writes for a field split its 240 cells: every run has at least
    one cell, the runs have 240 cells together, and two runs in a row never
    have the same diff. *)
Theorem field_runs_partition (curField prevField : list Z) :
  length curField = 240%nat -> length prevField = 240%nat ->
  Forall (fun r => 1 <= r.2) (field_runs curField prevField)
  /\ run_cells (field_runs curField prevField) = 240
  /\ diffs_alternate (field_runs curField prevField).
Proof.
  intros _ _.
  pose proof (field_runs_covers curField prevField) as Hcov.
  split; [|split].
  - apply (covers_counts _ _ _ _ Hcov).
  - pose proof (covers_run_cells _ _ _ _ Hcov). lia.
  - unfold field_runs. change (Z.to_nat FIELD_NUM_CELLS) with (S 239).
    rewrite runs_loop_first.
    destruct (runs_loop_alternate curField prevField 239 1
                (diff_at curField prevField 0) (0 + 1) ltac:(lia))
      as (c & rest & -> & H). exact H.
Qed.

Lemma field_runs_partition_witness :
  length (field page_commented) = 240%nat /\ length (field page_T) = 240%nat
  /\ Forall (fun r => 1 <= r.2) (field_runs (field page_commented) (field page_T))
  /\ run_cells (field_runs (field page_commented) (field page_T)) = 240
  /\ diffs_alternate (field_runs (field page_commented) (field page_T)).
Proof.
  split; [reflexivity|]. split; [reflexivity|].
  exact (field_runs_partition (field page_commented) (field page_T) eq_refl eq_refl).
Defined.



(** ** Reading a descriptor back *)

Lemma bit_of_odd (value : Z) :
  0 <= value -> (if odd_js value then 1 else 0) = value mod 2.
Proof.
  intros Hv. unfold odd_js. rewrite Z.rem_mod_nonneg by lia.
  pose proof (Z.mod_pos_bound value 2 ltac:(lia)).
  destruct (Z.eqb_spec (value mod 2) 0); cbn [negb]; lia.
Qed.

(** X17: [unpack_descriptor] loses nothing below the capacity of the
    packing: for a descriptor value in [0, 245760), packing the piece, the
    flags and the comment flag that were read from it gives the value
    back. *)
Theorem pack_unpack_descriptor (value : Z) (curField : list Z) (comment_ : jsstring) :
  0 <= value < 245760 ->
  let d := unpack_descriptor value in
  pack_descriptor (page_of_descriptor curField d comment_) (d_hasComment d) = value.
Proof.
  intros Hv d. subst d. unfold pack_descriptor, page_of_descriptor, unpack_descriptor.
  cbn [piece flags type rotation location raise mirror color lock
       d_piece d_raise d_mirror d_color d_lock d_hasComment].
  change FIELD_NUM_CELLS with 240.
  set (q1 := value / 8). set (q2 := q1 / 4). set (q3 := q2 / 240).
  set (q4 := q3 / 2). set (q5 := q4 / 2). set (q6 := q5 / 2). set (q7 := q6 / 2).
  assert (H1 : 0 <= q1) by (apply Z.div_pos; lia).
  assert (H2 : 0 <= q2) by (apply Z.div_pos; lia).
  assert (H3 : 0 <= q3) by (apply Z.div_pos; lia).
  assert (H4 : 0 <= q4) by (apply Z.div_pos; lia).
  assert (H5 : 0 <= q5) by (apply Z.div_pos; lia).
  assert (H6 : 0 <= q6) by (apply Z.div_pos; lia).
  assert (H7 : 0 <= q7) by (apply Z.div_pos; lia).
  rewrite !Z.rem_mod_nonneg by lia.
  rewrite !bit_of_odd by assumption.
  pose proof (Z.div_mod value 8 ltac:(lia)) as D1. fold q1 in D1.
  pose proof (Z.mod_pos_bound value 8 ltac:(lia)).
  pose proof (Z.div_mod q1 4 ltac:(lia)) as D2. fold q2 in D2.
  pose proof (Z.mod_pos_bound q1 4 ltac:(lia)).
  pose proof (Z.div_mod q2 240 ltac:(lia)) as D3. fold q3 in D3.
  pose proof (Z.mod_pos_bound q2 240 ltac:(lia)).
  pose proof (Z.div_mod q3 2 ltac:(lia)) as D4. fold q4 in D4.
  pose proof (Z.mod_pos_bound q3 2 ltac:(lia)).
  pose proof (Z.div_mod q4 2 ltac:(lia)) as D5. fold q5 in D5.
  pose proof (Z.mod_pos_bound q4 2 ltac:(lia)).
  pose proof (Z.div_mod q5 2 ltac:(lia)) as D6. fold q6 in D6.
  pose proof (Z.mod_pos_bound q5 2 ltac:(lia)).
  pose proof (Z.div_mod q6 2 ltac:(lia)) as D7. fold q7 in D7.
  pose proof (Z.mod_pos_bound q6 2 ltac:(lia)).
  clearbody q1 q2 q3 q4 q5 q6 q7.
  assert (Hq7 : q7 = 0 \/ q7 = 1) by lia.
  destruct Hq7 as [E|E]; subst q7;
    [change (0 mod 2) with 0 | change (1 mod 2) with 1]; cbn [Z.eqb]; lia.
Qed.

Lemma pack_unpack_descriptor_witness :
  0 <= 30736 < 245760
  /\ pack_descriptor
       (page_of_descriptor empty_field (unpack_descriptor 30736) [])
       (d_hasComment (unpack_descriptor 30736)) = 30736.
Proof.
  split; [lia|]. apply (pack_unpack_descriptor 30736 empty_field []). lia.
Defined.

(** ** The text that [encode] writes *)

Lemma table_char_in_table (d : Z) : 0 <= d < 64 -> table_char d ∈ ENCODE_TABLE.
Proof.
  intros Hd. destruct (table_char_facts d Hd) as (Hidx & _ & _).
  unfold str_index in Hidx. destruct (d <? 0); [discriminate|].
  by eapply list_elem_of_lookup_2.
Qed.

(** X18: for a page list within the range invariants, the text of [encode]
    is the format tag followed only by characters of [ENCODE_TABLE]:
    [encode] writes no filler and no other character. *)
Theorem encode_writes_tag_and_symbols (pages_ : list FumenPage) :
  pages_ok newFumenPage pages_ ->
  take (length FUMEN_VERSION) (encode (mkFumen pages_)) = FUMEN_VERSION
  /\ Forall (fun c => c ∈ ENCODE_TABLE)
       (drop (length FUMEN_VERSION) (encode (mkFumen pages_))).
Proof.
  intros Hok. unfold encode. cbn [pages].
  rewrite encode_loop_digits by assumption.
  rewrite take_app_length, drop_app_length. split; [reflexivity|].
  apply Forall_map. eapply Forall_impl; [apply pages_digits_range|].
  intros d Hd. by apply table_char_in_table.
Qed.

Lemma encode_writes_tag_and_symbols_witness :
  pages_ok newFumenPage [page_T; page_commented]
  /\ take (length FUMEN_VERSION) (encode (mkFumen [page_T; page_commented]))
     = FUMEN_VERSION
  /\ Forall (fun c => c ∈ ENCODE_TABLE)
       (drop (length FUMEN_VERSION) (encode (mkFumen [page_T; page_commented]))).
Proof.
  assert (W : pages_ok newFumenPage [page_T; page_commented]).
  { cbn [pages_ok]. repeat (split; [page_ok_computed|]). exact I. }
  split; [exact W|]. exact (encode_writes_tag_and_symbols _ W).
Defined.

(** ** Characters outside the alphabet *)

Lemma known_char_single (ch : jsstring) :
  known_char ch = true -> exists c, ch = [c] /\ isHighSurrogate c = false.
Proof.
  unfold known_char. intros H. apply orb_prop in H as [H|H].
  - apply bool_decide_eq_true_1 in H as [v Hv].
    apply elem_of_map_to_list in Hv.
    pose proof decode_table_entries as E. rewrite Forall_forall in E.
    destruct (E _ Hv) as [Hk Hr]. cbn [fst snd] in *.
    exists (table_char v). split; [exact Hk|].
    by destruct (table_char_facts v Hr) as (_ & _ & ?).
  - apply bool_decide_eq_true_1 in H as ->. exists 63. split; reflexivity.
Qed.

Lemma as_A_single (ch : jsstring) :
  exists c, as_A ch = [c] /\ isHighSurrogate c = false.
Proof.
  unfold as_A. destruct (known_char ch) eqn:H.
  - by apply known_char_single.
  - exists 65. split; reflexivity.
Qed.

Lemma as_A_digits (ch : jsstring) : char_digits (as_A ch) = char_digits ch.
Proof.
  unfold as_A. destruct (known_char ch) eqn:H; [reflexivity|].
  unfold known_char in H. apply orb_false_elim in H as [Hk Hq].
  apply bool_decide_eq_false_1 in Hk, Hq.
  unfold char_digits. rewrite (bool_decide_eq_false_2 _ Hq).
  change (bool_decide (lit "A" = lit "?")) with false. cbv iota.
  unfold digit_of at 2.
  destruct (DECODE_TABLE !! ch) as [v|] eqn:E; [exfalso; apply Hk; eauto|].
  vm_compute. reflexivity.
Qed.

Lemma chars_concat_single (l : list jsstring) :
  Forall (fun ch => exists c, ch = [c] /\ isHighSurrogate c = false) l ->
  chars (concat l) = l.
Proof.
  induction 1 as [|ch l (c & -> & Hc) _ IH]; [reflexivity|].
  change (concat ([c] :: l)) with (c :: concat l).
  destruct (concat l) as [|d rest] eqn:E.
  - cbn [chars] in *. by rewrite <- IH.
  - transitivity (if isHighSurrogate c && isLowSurrogate d
                  then [c; d] :: chars rest else [c] :: chars (d :: rest));
      [reflexivity|].
    by rewrite Hc, IH.
Qed.

(** X19: a character of the text that is neither one of the 64 characters
    of [ENCODE_TABLE] nor the filler [?] is read as the digit 0: [decode]
    gives the same result when every such character is replaced by [A]. *)
Theorem decode_unknown_as_A (body : jsstring) :
  decode (FUMEN_VERSION ++ unknown_as_A body) = decode (FUMEN_VERSION ++ body).
Proof.
  rewrite !decode_tagged.
  assert (E : numData_of (unknown_as_A body) = numData_of body).
  { rewrite !numData_of_flat_map. unfold unknown_as_A.
    rewrite chars_concat_single.
    - induction (chars body) as [|ch cs IH]; [reflexivity|].
      cbn [map flat_map]. by rewrite IH, as_A_digits.
    - apply Forall_map, Forall_forall. intros ch _. apply as_A_single. }
  by rewrite E.
Qed.

(** ** Sizes *)

Lemma field_loop_pos (data prevField : list Z) (fuel : nat) :
  forall (curField : list Z) (cellCount pos : nat) (cf' : list Z) (pos' : nat),
    field_loop fuel data prevField curField cellCount pos = Normal (cf', pos') ->
    (pos <= pos' <= Nat.max pos (length data))%nat
    /\ (Z.of_nat cellCount < FIELD_NUM_CELLS -> (pos + 2 <= pos')%nat).
Proof.
  induction fuel as [|fuel IH]; intros cf cc pos cf' pos'; cbn [field_loop];
    destruct (Z.ltb_spec (Z.of_nat cc) FIELD_NUM_CELLS) as [Hcc|Hcc]; try discriminate;
    try (intros [= <- <-]; split; [lia | intros; lia]).
  destruct (poll data pos 2) as [[value p]| |] eqn:Hpoll; bind_step; try discriminate.
  apply poll_normal_inv in Hpoll as (_ & -> & Hle).
  destruct (fill_run _ prevField _ cf cc) as [cf1 cc1].
  intros H. apply IH in H as [Hp _]. split; [lia|]. intros _. lia.
Qed.

Lemma chunk_loop_pos (data : list Z) (numChunks : nat) :
  forall (escaped : jsstring) (pos : nat) (escaped' : jsstring) (pos' : nat),
    chunk_loop numChunks data escaped pos = Normal (escaped', pos') ->
    (pos <= pos' <= Nat.max pos (length data))%nat.
Proof.
  induction numChunks as [|n IH]; intros e pos e' pos'; cbn [chunk_loop].
  - intros [= <- <-]. lia.
  - destruct (poll data pos 5) as [[cv p]| |] eqn:Hpoll; bind_step; try discriminate.
    apply poll_normal_inv in Hpoll as (_ & -> & Hle).
    intros H. apply IH in H. lia.
Qed.

Lemma parse_page_pos (data : list Z) (prev : FumenPage) (pos : nat)
    (page : FumenPage) (pos' : nat) :
  parse_page data prev pos = Normal (page, pos') ->
  (pos + 5 <= pos' <= length data)%nat.
Proof.
  unfold parse_page, parse_field.
  destruct (field_loop _ data (field prev) _ 0 pos) as [[cf pos1]| |] eqn:Hf; bind_step;
    try discriminate.
  apply field_loop_pos in Hf as [Hf1 Hf2].
  specialize (Hf2 ltac:(change FIELD_NUM_CELLS with 240; lia)).
  unfold parse_descriptor.
  destruct (poll data pos1 3) as [[v pos2]| |] eqn:Hd; bind_step; try discriminate.
  apply poll_normal_inv in Hd as (_ & -> & Hle).
  destruct (d_hasComment _).
  - unfold parse_comment.
    destruct (poll data (pos1 + 3) 2) as [[len pos3]| |] eqn:Hl; bind_step;
      try discriminate.
    apply poll_normal_inv in Hl as (_ & -> & Hle2).
    destruct (chunk_loop _ data [] (pos1 + 3 + 2)) as [[e pos4]| |] eqn:Hc; bind_step;
      try discriminate.
    apply chunk_loop_pos in Hc. intros [= _ <-]. lia.
  - bind_step. intros [= _ <-]. lia.
Qed.

Lemma page_loop_count (data : list Z) (fuel : nat) :
  forall (prev : FumenPage) (fumen : list FumenPage) (pos : nat) (r : list FumenPage),
    (pos <= length data)%nat ->
    page_loop fuel data prev fumen pos = Normal r ->
    (5 * length r <= 5 * length fumen + (length data - pos))%nat.
Proof.
  induction fuel as [|fuel IH]; intros prev fumen pos r Hpos; cbn [page_loop];
    destruct (pos <? length data)%nat; try discriminate;
    try (intros [= <-]; lia).
  destruct (parse_page data prev pos) as [[pg pos']| |] eqn:E; bind_step;
    try discriminate.
  apply parse_page_pos in E. intros H. apply IH in H; [|lia].
  rewrite length_app in H. cbn [length] in H. lia.
Qed.

Lemma chars_length (s : jsstring) : (length (chars s) <= length s)%nat.
Proof.
  rewrite <- (concat_chars s) at 2.
  pose proof (chars_shapes s) as H.
  induction H as [|ch cs Hch _ IH]; [reflexivity|].
  cbn [concat length]. rewrite length_app.
  destruct Hch as [[c ->] | (c & d & -> & _)]; cbn [length]; lia.
Qed.

Lemma numData_of_length (data : jsstring) :
  (length (numData_of data) <= length data)%nat.
Proof.
  rewrite numData_of_flat_map.
  assert (G : (length (flat_map char_digits (chars data)) <= length (chars data))%nat).
  { induction (chars data) as [|ch cs IH]; [reflexivity|].
    change (flat_map char_digits (ch :: cs))
      with (char_digits ch ++ flat_map char_digits cs).
    rewrite length_app. cbn [length].
    assert ((length (char_digits ch) <= 1)%nat)
      by (unfold char_digits; destruct (bool_decide (ch = lit "?")); cbn [length]; lia).
    lia. }
  pose proof (chars_length data). lia.
Qed.

(** X20: a decoded page takes at least five digits of the text (one run
    entry and the descriptor), so a text of [n] characters, the five of the
    tag included, decodes to at most [(n - 5) / 5] pages. *)
Theorem decoded_page_count (data : jsstring) (fumen : Fumen) :
  decode data = Normal (Some fumen) ->
  (5 * length (pages fumen) + 5 <= length data)%nat.
Proof.
  unfold decode. destruct (startsWith data FUMEN_VERSION) eqn:Htag; [|discriminate].
  destruct (page_loop _ _ newFumenPage [] 0) as [r| |] eqn:E; try discriminate.
  intros [= <-]. cbn [pages].
  apply page_loop_count in E; [|lia]. cbn [length] in E.
  pose proof (numData_of_length (drop (length FUMEN_VERSION) data)) as Hn.
  rewrite length_drop in Hn.
  unfold startsWith in Htag. apply bool_decide_eq_true_1 in Htag.
  apply (f_equal length) in Htag. rewrite length_take in Htag.
  change (length FUMEN_VERSION) with 5%nat in *. lia.
Qed.

Lemma decoded_page_count_witness :
  decode (lit "v115@vhVgH") = Normal (Some (mkFumen [page_T]))
  /\ (5 * length (pages (mkFumen [page_T])) + 5 <= length (lit "v115@vhVgH"))%nat.
Proof.
  assert (D : decode (lit "v115@vhVgH") = Normal (Some (mkFumen [page_T])))
    by (vm_compute; reflexivity).
  split; [exact D|]. exact (decoded_page_count _ _ D).
Defined.

Lemma unpoll_loop_length (n : nat) :
  forall (value : Z) (result : jsstring),
    (length result + n <= length (unpoll_loop n value result))%nat.
Proof.
  induction n as [|n IH]; intros v result; cbn [unpoll_loop]; [lia|].
  specialize (IH (v / 64) (append_value result (str_index ENCODE_TABLE (Z.rem v 64)))).
  unfold append_value in *. rewrite length_app in IH.
  destruct (str_index ENCODE_TABLE (Z.rem v 64));
    [cbn [length] in IH | change (length (lit "undefined")) with 9%nat in IH]; lia.
Qed.

Lemma encode_page_length (result : jsstring) (prevPage page : FumenPage) :
  (length result + 5 <= length (encode_page result prevPage page))%nat.
Proof.
  assert (G : (length result + 5
               <= length ((encode_field result (field page) (field prevPage))
                          ++ unpoll (pack_descriptor page
                                       (0 <? length (comment (flags page)))%nat) 3))%nat).
  { rewrite encode_field_runs, !length_app.
    pose proof (unpoll_loop_length 3 (pack_descriptor page
                  (0 <? length (comment (flags page)))%nat) []) as H3.
    cbn [length] in H3. fold (unpoll (pack_descriptor page
                  (0 <? length (comment (flags page)))%nat) 3) in H3.
    destruct (runs_loop_alternate (field page) (field prevPage) 239 1
                (diff_at (field page) (field prevPage) 0) (0 + 1) ltac:(lia))
      as (c & rest & E & _).
    unfold field_runs. change (Z.to_nat FIELD_NUM_CELLS) with (S 239).
    rewrite runs_loop_first, E. cbn [flat_map]. rewrite length_app.
    pose proof (unpoll_loop_length 2 (run_value (diff_at (field page) (field prevPage) 0) c)
                  []) as H2.
    cbn [length] in H2. unfold run_string, unpoll in *. cbn [fst snd]. lia. }
  unfold encode_page. destruct (0 <? length (comment (flags page)))%nat; [|exact G].
  unfold encode_comment. rewrite encode_chunks_loop_app, !length_app in *. lia.
Qed.

(** X21: whatever the pages hold, [encode] writes the five characters of
    the tag and at least five characters for every page. *)
Theorem encode_length_at_least (fumen : Fumen) :
  (5 + 5 * length (pages fumen) <= length (encode fumen))%nat.
Proof.
  unfold encode.
  assert (G : forall ps prev result,
             (length result + 5 * length ps <= length (encode_loop ps prev result))%nat).
  { induction ps as [|p ps IH]; intros prev result; cbn [encode_loop length]; [lia|].
    specialize (IH p (encode_page result prev p)).
    pose proof (encode_page_length result prev p). lia. }
  specialize (G (pages fumen) newFumenPage FUMEN_VERSION).
  change (length FUMEN_VERSION) with 5%nat in G. exact G.
Qed.

(** ** [percentEncode] and concatenation *)

(** X22: [percentEncode] works character by character: on a string whose
    first part holds no high surrogate, the result is the two parts encoded
    one after the other. *)
Theorem percentEncode_app (a b : jsstring) :
  Forall (fun c => isHighSurrogate c = false) a ->
  percentEncode (a ++ b) = percentEncode a ++ percentEncode b.
Proof.
  intros Ha. rewrite !percentEncode_flat_map.
  rewrite chars_app_single_units, (chars_single_units a) by assumption.
  apply flat_map_app.
Qed.

Lemma percentEncode_app_witness :
  Forall (fun c => isHighSurrogate c = false) (lit "T-spin ")
  /\ percentEncode (lit "T-spin " ++ lit "double!")
     = percentEncode (lit "T-spin ") ++ percentEncode (lit "double!").
Proof.
  assert (W : Forall (fun c => isHighSurrogate c = false) (lit "T-spin "))
    by by_computation.
  split; [exact W|]. exact (percentEncode_app _ _ W).
Defined.

(** ** One changed cell between two pages *)

Lemma encode_loop_result (pages_ : list FumenPage) :
  forall (prevPage : FumenPage) (result : jsstring),
    encode_loop pages_ prevPage result = result ++ encode_loop pages_ prevPage [].
Proof.
  induction pages_ as [|p ps IH]; intros prev result; cbn [encode_loop].
  - by rewrite app_nil_r.
  - rewrite IH, (IH p (encode_page [] prev p)), encode_page_app.
    by rewrite <- app_assoc.
Qed.

Lemma encode_loop_app (pages1 pages2 : list FumenPage) :
  forall (prevPage : FumenPage) (result : jsstring),
    encode_loop (pages1 ++ pages2) prevPage result
    = encode_loop pages2 (default prevPage (last pages1))
        (encode_loop pages1 prevPage result).
Proof.
  induction pages1 as [|p ps IH]; intros prev result; [reflexivity|].
  cbn [app encode_loop]. rewrite IH.
  destruct ps as [|q qs]; [reflexivity|].
  rewrite (last_default_cons qs q p prev). reflexivity.
Qed.

Lemma encode_page_split (result : jsstring) (prevPage page : FumenPage) :
  encode_page result prevPage page
  = encode_field result (field page) (field prevPage) ++ page_tail page.
Proof.
  unfold encode_page, page_tail.
  destruct (0 <? length (comment (flags page)))%nat.
  - unfold encode_comment. rewrite encode_chunks_loop_app.
    rewrite (encode_chunks_loop_app _ _ _ ([] ++ _)).
    by rewrite app_nil_l, <- !app_assoc.
  - by rewrite app_nil_r.
Qed.

(** C9, amended: when page 2 directly follows page 1 in the page list, both
    fields have 240 cells and page 2's field is page 1's with the single
    cell [k] changed from 0 to 1, [encode] writes, right after the text of
    the pages up to page 1, the field of page 2 as a run of diff 8 for the
    [k] cells before [k] (absent when [k] is the first cell), a run of its
    own, of diff 9 and length 1, for the changed cell, and a run of diff 8
    for the [239 - k] cells after it (absent when [k] is the last cell),
    then the descriptor and comment of page 2 and the pages after it: two
    run entries when the changed cell is the first or the last cell, three
    otherwise, and the changed cell is never merged with its neighbours. *)
Theorem single_change_runs_written (before after : list FumenPage)
    (page1 page2 : FumenPage) (k : nat) :
  length (field page1) = 240%nat ->
  field page1 !! k = Some 0 ->
  field page2 = <[k := 1]> (field page1) ->
  field_runs (field page2) (field page1) = single_change_runs k
  /\ encode (mkFumen (before ++ [page1; page2] ++ after))
     = encode (mkFumen (before ++ [page1]))
       ++ flat_map run_string (single_change_runs k)
       ++ page_tail page2
       ++ encode_loop after page2 []
  /\ length (single_change_runs k)
     = (if (k =? 0)%nat || (k =? 239)%nat then 2%nat else 3%nat).
Proof.
  intros Hlen Hcell Hfield.
  assert (Hk : (k < 240)%nat) by (apply lookup_lt_Some in Hcell; lia).
  assert (H : field_runs (field page2) (field page1) = single_change_runs k)
    by (rewrite Hfield; by apply field_runs_single_change).
  split; [exact H|]. split.
  - unfold encode. cbn [pages].
    replace (before ++ [page1; page2] ++ after)
      with ((before ++ [page1]) ++ page2 :: after)
      by (by rewrite <- app_assoc).
    rewrite encode_loop_app, last_snoc.
    change (default newFumenPage (Some page1)) with page1.
    cbn [encode_loop].
    rewrite encode_loop_result, encode_page_split, encode_field_runs, H.
    by rewrite <- !app_assoc.
  - unfold single_change_runs.
    destruct (Nat.eqb_spec k 0) as [->|?]; [reflexivity|].
    destruct (Nat.eqb_spec k 239); reflexivity.
Qed.

Lemma single_change_runs_written_witness :
  length (field page_T) = 240%nat
  /\ field page_T !! 239%nat = Some 0
  /\ field_runs (<[239%nat := 1]> (field page_T)) (field page_T) = [(8, 239); (9, 1)]
  /\ encode (mkFumen ([] ++ [page_T;
                              mkPage (<[239%nat := 1]> (field page_T)) newPiece newFlags]
                          ++ []))
     = encode (mkFumen ([] ++ [page_T]))
       ++ flat_map run_string [(8, 239); (9, 1)]
       ++ page_tail (mkPage (<[239%nat := 1]> (field page_T)) newPiece newFlags)
       ++ encode_loop [] (mkPage (<[239%nat := 1]> (field page_T)) newPiece newFlags) [].
Proof.
  split; [reflexivity|]. split; [reflexivity|].
  destruct (single_change_runs_written [] [] page_T
              (mkPage (<[239%nat := 1]> (field page_T)) newPiece newFlags) 239
              eq_refl eq_refl eq_refl) as (H1 & H2 & _).
  split; [exact H1 | exact H2].
Defined.
